(** * The plugin worker pool of nx: [plugin-pool.ts]

    A shallow embedding of
    [packages/nx/src/project-graph/plugins/plugin-pool.ts] and of the part
    of the JavaScript run time it relies on: promises that settle once,
    the microtask queue, the insertion-ordered [Map], and the event
    listeners of one [ChildProcess].

    The host is single threaded.  One *event* is one synchronous run of
    host code: an operation of the Remote Plugin Handle called by the host,
    a ['message'] or ['exit'] event of the worker, a call of the shutdown
    function, or the engine running one job of the microtask queue.  A
    [World] holds the module-level state, the state captured by the
    closures that [loadRemoteNxPlugin] creates for one worker, the promises
    and the job queue.  Every primitive operation on the worker, on the
    pending registry and on a promise appends itself to [log], in program
    order.

    Events may come in any order: the statements below hold for every
    interleaving of host calls, worker events and jobs, and so also for the
    ones a JavaScript engine produces, where the job queue is emptied after
    every listener.  A chain of promise reactions that the engine spreads
    over several jobs is one job here when nothing can run in between that
    the program could observe.  What the worker does with a message or a
    signal is outside the model. *)

From stdpp Require Import gmap strings pretty list.

(** ** Values *)

(** What travels over the IPC channel is JSON and stays opaque here; an
    [Error] object made by the host keeps its message. *)
Inductive Value :=
  | VJson (s : string)
  | VError (message : string).

Inductive Outcome :=
  | Fulfilled (v : Value)
  | Rejected (e : Value).

Global Instance Value_eq_dec : EqDecision Value.
Proof. solve_decision. Defined.
Global Instance Outcome_eq_dec : EqDecision Outcome.
Proof. solve_decision. Defined.

(** The three optional operations of a plugin. *)
Inductive Op := OpCreateNodes | OpCreateDependencies | OpProcessProjectGraph.

Global Instance Op_eq_dec : EqDecision Op.
Proof. solve_decision. Defined.

(** ** Messages ([./messaging]) *)

(** Modelled from the spec: the envelopes the host sends, declared in
    [messaging.ts], which is not among the sources; the wire protocol table
    lists their types and payloads. *)
Inductive PluginWorkerMessage :=
  | Msg_load (plugin root : Value)
  | Msg_createNodes (configFiles : list string) (context : Value) (tx : string)
  | Msg_createDependencies (context : Value) (tx : string)
  | Msg_processProjectGraph (graph ctx : Value) (tx : string).

(** Modelled from the spec: the payload of a successful [load-result]
    (declared in [messaging.ts]). *)
Record LoadSuccess := {
  ls_name : string;
  ls_createNodesPattern : option string;
  ls_hasCreateDependencies : bool;
  ls_hasProcessProjectGraph : bool }.

Inductive LoadResult :=
  | LoadOk (r : LoadSuccess)        (* success: true *)
  | LoadFail (error : Value).       (* success: false *)

Inductive OpResult :=
  | OpOk (payload : Value)          (* success: true, with the typed payload *)
  | OpFail (error : Value).         (* success: false *)

(** Modelled from the spec: the envelopes the worker sends
    ([PluginWorkerResult] of [messaging.ts]); [consumeMessage] dispatches on
    the constructor. *)
Inductive PluginWorkerResult :=
  | Res_load_result (r : LoadResult)
  | Res_createDependenciesResult (tx : string) (r : OpResult)
  | Res_createNodesResult (tx : string) (r : OpResult)
  | Res_processProjectGraphResult (tx : string) (r : OpResult).

(** ** The Remote Plugin Handle ([./internal-api]) *)

(** Modelled from the spec: the type [RemotePlugin] of [internal-api.ts],
    which is not among the sources.  An operation of the handle is an arrow
    function closing over [worker], [pending] and the variable
    [pluginName]; for one worker the closure is determined by the operation
    it sends, and calling it is [invoke] below.  An absent operation is
    [undefined]: [None]. *)
Record RemotePlugin := {
  name : string;
  createNodes : option (string * Op);
  createDependencies : option Op;
  processProjectGraph : option Op }.

Inductive LoadOutcome :=
  | LoadFulfilled (plugin : RemotePlugin)
  | LoadRejected (err : Value).

(** ** Promises and the pending registry *)

(** [interface PendingPromise]: the three fields are references.  One
    [Cell] stands for the two promises that one call of
    [registerPendingPromise] creates: [inner] is the state of
    [new Promise(...)], which [resolver] and [rejector] settle, and [outer]
    the state of the promise [.finally(...)] derives from it, which is the
    one stored as [promise] and returned to the caller.  [finally_tx] is
    the [tx] captured by the callback given to [finally]. *)
Record PendingPromise := {
  promise : nat;
  resolver : nat;
  rejector : nat }.

Record Cell := {
  inner : option Outcome;
  finally_tx : string;
  outer : option Outcome }.

(** Jobs of the microtask queue. *)
Inductive Job :=
  | JFinally (i : nat)   (* the reaction [finally] put on the inner promise of cell [i] *)
  | JResume.             (* [shutdownPluginWorker] resumes after its [await] *)

Inductive Action :=
  | ASend (m : PluginWorkerMessage)             (* worker.send(...) *)
  | APendingSet (tx : string) (i : nat)         (* pending.set(tx, {...}) *)
  | APendingDelete (tx : string) (found : bool) (* pending.delete(tx) and what it returned *)
  | ASettle (i : nat) (o : Outcome)             (* resolver/rejector of cell i took effect *)
  | AOffExit                                    (* worker.off('exit', exitHandler) *)
  | AAwaitAll (snapshot : list nat)             (* await Promise.all([...]) *)
  | AKill (signal : string)                     (* worker.kill(signal) *)
  | ADispatchRejected (e : Value)               (* the promise of consumeMessage(...) was rejected *)
  | AUnhandledRejection (e : Value).            (* the promise of shutdownPluginWorker(...) was rejected *)

(** ** The insertion-ordered [Map] of JavaScript, with string keys *)
Module JsMap.
Section ops.
Context {V : Type}.
Implicit Types (m : list (string * V)) (k : string).

Fixpoint get k m : option V :=
  match m with
  | [] => None
  | (k', v) :: m' => if decide (k' = k) then Some v else get k m'
  end.

(** [set] on a present key replaces the value and keeps the position. *)
Fixpoint set k (v : V) m : list (string * V) :=
  match m with
  | [] => [(k, v)]
  | (k', v') :: m' =>
      if decide (k' = k) then (k, v) :: m' else (k', v') :: set k v m'
  end.

Fixpoint delete k m : list (string * V) :=
  match m with
  | [] => []
  | (k', v) :: m' =>
      if decide (k' = k) then delete k m' else (k', v) :: delete k m'
  end.

Definition has k m : bool := bool_decide (is_Some (get k m)).

Definition values m : list V := m.*2.

Definition keys m : list string := m.*1.

End ops.
End JsMap.

(** ** The world *)
Record World := {
  (* module level *)
  cleanupFunctions : gset N;        (* the cleanup closures, each named by the pid of its worker *)
  pluginNames : gmap N string;      (* keyed by the worker *)
  nxPluginCache : gmap string N;    (* ./internal-api; only cleared here *)
  (* the worker, a ChildProcess *)
  pid : N;
  exitCode : option Z;              (* null until the process has exited with a code *)
  exitListener : bool;              (* is exitHandler on the 'exit' listeners? *)
  (* captured by the closures of loadRemoteNxPlugin and createWorkerHandler *)
  pluginName : option string;       (* let pluginName: string; undefined at first *)
  pendingPromises : list (string * PendingPromise);
  loaded : option LoadOutcome;      (* the Promise<RemotePlugin> that is returned *)
  (* promises and jobs *)
  cells : list Cell;
  microtasks : list Job;
  awaiting : list (list nat);       (* parked: await Promise.all(snapshot) *)
  log : list Action }.

Definition with_cleanupFunctions (f : gset N → gset N) (w : World) : World :=
  {| cleanupFunctions := f (cleanupFunctions w); pluginNames := pluginNames w;
     nxPluginCache := nxPluginCache w; pid := pid w; exitCode := exitCode w;
     exitListener := exitListener w; pluginName := pluginName w;
     pendingPromises := pendingPromises w; loaded := loaded w; cells := cells w;
     microtasks := microtasks w; awaiting := awaiting w; log := log w |}.

Definition with_pluginNames (f : gmap N string → gmap N string) (w : World) : World :=
  {| cleanupFunctions := cleanupFunctions w; pluginNames := f (pluginNames w);
     nxPluginCache := nxPluginCache w; pid := pid w; exitCode := exitCode w;
     exitListener := exitListener w; pluginName := pluginName w;
     pendingPromises := pendingPromises w; loaded := loaded w; cells := cells w;
     microtasks := microtasks w; awaiting := awaiting w; log := log w |}.

Definition with_nxPluginCache (c : gmap string N) (w : World) : World :=
  {| cleanupFunctions := cleanupFunctions w; pluginNames := pluginNames w;
     nxPluginCache := c; pid := pid w; exitCode := exitCode w;
     exitListener := exitListener w; pluginName := pluginName w;
     pendingPromises := pendingPromises w; loaded := loaded w; cells := cells w;
     microtasks := microtasks w; awaiting := awaiting w; log := log w |}.

Definition with_exitCode (c : option Z) (w : World) : World :=
  {| cleanupFunctions := cleanupFunctions w; pluginNames := pluginNames w;
     nxPluginCache := nxPluginCache w; pid := pid w; exitCode := c;
     exitListener := exitListener w; pluginName := pluginName w;
     pendingPromises := pendingPromises w; loaded := loaded w; cells := cells w;
     microtasks := microtasks w; awaiting := awaiting w; log := log w |}.

Definition with_exitListener (b : bool) (w : World) : World :=
  {| cleanupFunctions := cleanupFunctions w; pluginNames := pluginNames w;
     nxPluginCache := nxPluginCache w; pid := pid w; exitCode := exitCode w;
     exitListener := b; pluginName := pluginName w;
     pendingPromises := pendingPromises w; loaded := loaded w; cells := cells w;
     microtasks := microtasks w; awaiting := awaiting w; log := log w |}.

Definition with_pluginName (n : option string) (w : World) : World :=
  {| cleanupFunctions := cleanupFunctions w; pluginNames := pluginNames w;
     nxPluginCache := nxPluginCache w; pid := pid w; exitCode := exitCode w;
     exitListener := exitListener w; pluginName := n;
     pendingPromises := pendingPromises w; loaded := loaded w; cells := cells w;
     microtasks := microtasks w; awaiting := awaiting w; log := log w |}.

Definition with_pendingPromises
    (f : list (string * PendingPromise) → list (string * PendingPromise))
    (w : World) : World :=
  {| cleanupFunctions := cleanupFunctions w; pluginNames := pluginNames w;
     nxPluginCache := nxPluginCache w; pid := pid w; exitCode := exitCode w;
     exitListener := exitListener w; pluginName := pluginName w;
     pendingPromises := f (pendingPromises w); loaded := loaded w; cells := cells w;
     microtasks := microtasks w; awaiting := awaiting w; log := log w |}.

Definition with_loaded (l : option LoadOutcome) (w : World) : World :=
  {| cleanupFunctions := cleanupFunctions w; pluginNames := pluginNames w;
     nxPluginCache := nxPluginCache w; pid := pid w; exitCode := exitCode w;
     exitListener := exitListener w; pluginName := pluginName w;
     pendingPromises := pendingPromises w; loaded := l; cells := cells w;
     microtasks := microtasks w; awaiting := awaiting w; log := log w |}.

Definition with_cells (f : list Cell → list Cell) (w : World) : World :=
  {| cleanupFunctions := cleanupFunctions w; pluginNames := pluginNames w;
     nxPluginCache := nxPluginCache w; pid := pid w; exitCode := exitCode w;
     exitListener := exitListener w; pluginName := pluginName w;
     pendingPromises := pendingPromises w; loaded := loaded w; cells := f (cells w);
     microtasks := microtasks w; awaiting := awaiting w; log := log w |}.

Definition with_microtasks (f : list Job → list Job) (w : World) : World :=
  {| cleanupFunctions := cleanupFunctions w; pluginNames := pluginNames w;
     nxPluginCache := nxPluginCache w; pid := pid w; exitCode := exitCode w;
     exitListener := exitListener w; pluginName := pluginName w;
     pendingPromises := pendingPromises w; loaded := loaded w; cells := cells w;
     microtasks := f (microtasks w); awaiting := awaiting w; log := log w |}.

Definition with_awaiting (f : list (list nat) → list (list nat)) (w : World) : World :=
  {| cleanupFunctions := cleanupFunctions w; pluginNames := pluginNames w;
     nxPluginCache := nxPluginCache w; pid := pid w; exitCode := exitCode w;
     exitListener := exitListener w; pluginName := pluginName w;
     pendingPromises := pendingPromises w; loaded := loaded w; cells := cells w;
     microtasks := microtasks w; awaiting := f (awaiting w); log := log w |}.

(** Every primitive that is observed goes through [emit]. *)
Definition emit (a : Action) (w : World) : World :=
  {| cleanupFunctions := cleanupFunctions w; pluginNames := pluginNames w;
     nxPluginCache := nxPluginCache w; pid := pid w; exitCode := exitCode w;
     exitListener := exitListener w; pluginName := pluginName w;
     pendingPromises := pendingPromises w; loaded := loaded w; cells := cells w;
     microtasks := microtasks w; awaiting := awaiting w; log := log w ++ [a] |}.

(** ** Primitive operations *)

Definition worker_send (m : PluginWorkerMessage) : World → World :=
  emit (ASend m).

Definition worker_kill (signal : string) : World → World :=
  emit (AKill signal).

(** [worker.off('exit', exitHandler)]; removing a listener that is not
    attached changes nothing. *)
Definition worker_off_exit (w : World) : World :=
  emit AOffExit (with_exitListener false w).

Definition pending_set (tx : string) (pp : PendingPromise) (w : World) : World :=
  emit (APendingSet tx (promise pp)) (with_pendingPromises (JsMap.set tx pp) w).

Definition pending_delete (tx : string) (w : World) : World :=
  emit (APendingDelete tx (JsMap.has tx (pendingPromises w)))
       (with_pendingPromises (JsMap.delete tx) w).

Definition set_inner (o : Outcome) (c : Cell) : Cell :=
  {| inner := Some o; finally_tx := finally_tx c; outer := outer c |}.

Definition set_outer (o : option Outcome) (c : Cell) : Cell :=
  {| inner := inner c; finally_tx := finally_tx c; outer := o |}.

(** Calling the resolving functions of the inner promise of cell [i].  A
    promise settles once: on a settled promise they do nothing.  Settling
    queues the reaction that [finally] registered. *)
Definition settle (i : nat) (o : Outcome) (w : World) : World :=
  match cells w !! i with
  | Some c =>
      match inner c with
      | None =>
          emit (ASettle i o)
            (with_microtasks (λ q, q ++ [JFinally i])
               (with_cells (λ cs, <[i := set_inner o c]> cs) w))
      | Some _ => w
      end
  | None => w
  end.

(** [Promise.all] over the outer promises of a snapshot: rejected as soon as
    one of them is, fulfilled when all are. *)
Inductive AllState :=
  | AllPending
  | AllFulfilled
  | AllRejected (e : Value).

Fixpoint Promise_all (cs : list Cell) (snapshot : list nat) : AllState :=
  match snapshot with
  | [] => AllFulfilled
  | i :: rest =>
      match cs !! i ≫= outer with
      | Some (Rejected e) => AllRejected e
      | Some (Fulfilled _) => Promise_all cs rest
      | None =>
          match Promise_all cs rest with
          | AllRejected e => AllRejected e
          | _ => AllPending
          end
      end
  end.

(** [await Promise.all(snapshot)] inside [shutdownPluginWorker]: the
    function resumes in a later job when the promise is fulfilled; when it
    is rejected the [await] throws, the rest of the function is skipped and
    the promise of the [async] function, which no caller keeps, is rejected;
    otherwise the function stays parked. *)
Definition await_all (snapshot : list nat) (w : World) : World :=
  match Promise_all (cells w) snapshot with
  | AllFulfilled => with_microtasks (λ q, q ++ [JResume]) w
  | AllRejected e => emit (AUnhandledRejection e) w
  | AllPending => with_awaiting (λ a, a ++ [snapshot]) w
  end.

(** After an outer promise has settled the parked functions look again. *)
Definition wake (w : World) : World :=
  foldl (λ w' s, await_all s w') (with_awaiting (λ _, []) w) (awaiting w).

(** ** [registerPendingPromise] *)

(** The executor given to [new Promise] runs at once: [callback ()] is
    called inside it, before [finally] and before [pending.set]. *)
Definition registerPendingPromise (tx : string) (callback : World → World)
    (w : World) : nat * World :=
  let i := length (cells w) in
  let w1 :=
    callback
      (with_cells (λ cs, cs ++ [{| inner := None; finally_tx := tx; outer := None |}]) w) in
  let w2 := pending_set tx {| promise := i; resolver := i; rejector := i |} w1 in
  (i, w2).

(** ** The operations of the handle *)

(** String concatenation turns [undefined] into its name. *)
Definition js_string (s : option string) : string := default "undefined" s.

(** [pluginName + ':createNodes:' + performance.now()] and its two
    siblings.  [now] is the reading of [performance.now()] as the
    concatenation renders it. *)
Definition mk_tx (pn : option string) (op : Op) (now : string) : string :=
  match op with
  | OpCreateNodes => js_string pn +:+ ":createNodes:" +:+ now
  | OpCreateDependencies => js_string pn +:+ ":createDependencies:" +:+ now
  | OpProcessProjectGraph => js_string pn +:+ ":processProjectGraph:" +:+ now
  end.

Inductive Invocation :=
  | Call_createNodes (configFiles : list string) (ctx : Value)
  | Call_createDependencies (opts ctx : Value)
  | Call_processProjectGraph (graph ctx : Value).

Definition op_of (c : Invocation) : Op :=
  match c with
  | Call_createNodes _ _ => OpCreateNodes
  | Call_createDependencies _ _ => OpCreateDependencies
  | Call_processProjectGraph _ _ => OpProcessProjectGraph
  end.

Definition request_of (c : Invocation) (tx : string) : PluginWorkerMessage :=
  match c with
  | Call_createNodes configFiles ctx => Msg_createNodes configFiles ctx tx
  | Call_createDependencies _ ctx => Msg_createDependencies ctx tx
  | Call_processProjectGraph graph ctx => Msg_processProjectGraph graph ctx tx
  end.

(** The body shared by the three arrow functions of the handle. *)
Definition invoke (c : Invocation) (now : string) (w : World) : nat * World :=
  let tx := mk_tx (pluginName w) (op_of c) now in
  registerPendingPromise tx (worker_send (request_of c tx)) w.

(** ** [createWorkerHandler] *)

(** The object literal given to [onload]. [createNodesPattern ? ... :
    undefined] tests truthiness: a missing or empty pattern gives no
    [createNodes]. *)
Definition remotePlugin (r : LoadSuccess) : RemotePlugin :=
  {| name := ls_name r;
     createNodes :=
       match ls_createNodesPattern r with
       | Some pat => if decide (pat = "") then None else Some (pat, OpCreateNodes)
       | None => None
       end;
     createDependencies :=
       if ls_hasCreateDependencies r then Some OpCreateDependencies else None;
     processProjectGraph :=
       if ls_hasProcessProjectGraph r then Some OpProcessProjectGraph else None |}.

(** [res] and [rej] of the promise returned by [loadRemoteNxPlugin]. *)
Definition onload (plugin : RemotePlugin) (w : World) : World :=
  match loaded w with
  | None => with_loaded (Some (LoadFulfilled plugin)) w
  | Some _ => w
  end.

Definition onloadError (err : Value) (w : World) : World :=
  match loaded w with
  | None => with_loaded (Some (LoadRejected err)) w
  | Some _ => w
  end.

(** How the body of a handler ends. *)
Inductive Completion :=
  | Normal (w : World)
  | Throw (e : Value) (w : World).

Definition TypeError_destructure : Value :=
  VError "TypeError: Cannot destructure property 'resolver' of 'pending.get(...)' as it is undefined.".

(** The three result handlers have one body: [const { resolver, rejector }
    = pending.get(tx)] and then the test of [result.success].
    Destructuring [undefined] throws. *)
Definition on_result (tx : string) (r : OpResult) (w : World) : Completion :=
  match JsMap.get tx (pendingPromises w) with
  | None => Throw TypeError_destructure w
  | Some pp =>
      match r with
      | OpOk payload => Normal (settle (resolver pp) (Fulfilled payload) w)
      | OpFail error => Normal (settle (rejector pp) (Rejected error) w)
      end
  end.

(** The handlers [createWorkerHandler] writes in the object literal it
    gives to [consumeMessage], one for every type of envelope:
    [createWorkerHandler message w] is how the handler for the type of
    [message] ends when it is run on the payload.  This is the completion
    of the handler, not of the ['message'] listener, which is [on_message]
    below. *)
Definition createWorkerHandler (message : PluginWorkerResult) (w : World) : Completion :=
  match message with
  | Res_load_result (LoadOk result) =>
      let w1 := with_pluginName (Some (ls_name result)) w in
      let w2 := with_pluginNames (λ m, <[pid w1 := ls_name result]> m) w1 in
      Normal (onload (remotePlugin result) w2)
  | Res_load_result (LoadFail error) => Normal (onloadError error w)
  | Res_createDependenciesResult tx result => on_result tx result w
  | Res_createNodesResult tx result => on_result tx result w
  | Res_processProjectGraphResult tx result => on_result tx result w
  end.

(** ** [createWorkerExitHandler] *)

Definition exit_message (w : World) : string :=
  "Plugin worker " +:+ default (pretty (pid w)) (pluginNames w !! pid w)
    +:+ " exited unexpectedly with code "
    +:+ match exitCode w with Some code => pretty code | None => "null" end.

Definition createWorkerExitHandler (w : World) : World :=
  foldl (λ w' kv, settle (rejector kv.2) (Rejected (VError (exit_message w'))) w')
        w (pendingPromises w).

(** ** [shutdownPluginWorker] and the cleanup function *)

Definition shutdownPluginWorker (w : World) : World :=
  let w1 := with_nxPluginCache ∅ w in
  let snapshot := promise <$> JsMap.values (pendingPromises w1) in
  await_all snapshot (emit (AAwaitAll snapshot) w1).

Definition cleanupFunction (w : World) : World :=
  shutdownPluginWorker (worker_off_exit w).

(** The second component of what [loadRemoteNxPlugin] returns. *)
Definition shutdown (w : World) : World :=
  with_cleanupFunctions (λ s, s ∖ {[pid w]}) (cleanupFunction w).

(** ** [loadRemoteNxPlugin]

    [child] is the process [fork] started; the first three arguments are
    the module-level state at the time of the call.

    [cleanupFunctions] is a [Set] of closures.  A closure is named here by
    the pid of the worker it closes over, so [cleanupFunctions.add] of the
    new closure is the union with [{[child]}].  The closure is new, it is
    never in the set before it is added: this is [child ∉ cf], and the
    naming is exact when it holds, that is when no closure of an earlier
    worker with the same pid is left in [cf].  What depends on the elements
    of the set is stated under this hypothesis. *)
Definition loadRemoteNxPlugin (cf : gset N) (names : gmap N string)
    (cache : gmap string N) (plugin root : Value) (child : N) : World :=
  worker_send (Msg_load plugin root)
    {| cleanupFunctions := {[child]} ∪ cf; pluginNames := names;
       nxPluginCache := cache; pid := child; exitCode := None;
       exitListener := true; pluginName := None; pendingPromises := [];
       loaded := None; cells := []; microtasks := []; awaiting := [];
       log := [] |}.

(** ** Jobs and events *)

Definition run_job (j : Job) (w : World) : World :=
  match j with
  | JFinally i =>
      match cells w !! i with
      | Some c =>
          let w1 := pending_delete (finally_tx c) w in
          wake (with_cells (λ cs, <[i := set_outer (inner c) c]> cs) w1)
      | None => w
      end
  | JResume => worker_kill "SIGINT" w
  end.

Definition step_microtask (w : World) : World :=
  match microtasks w with
  | [] => w
  | j :: q => run_job j (with_microtasks (λ _, q) w)
  end.

Definition operation (h : RemotePlugin) (op : Op) : option Op :=
  match op with
  | OpCreateNodes => snd <$> createNodes h
  | OpCreateDependencies => createDependencies h
  | OpProcessProjectGraph => processProjectGraph h
  end.

Inductive Event :=
  | EInvoke (c : Invocation) (now : string)  (* the host calls an operation of the handle *)
  | EMessage (m : PluginWorkerResult)        (* 'message' of the worker *)
  | EExit (code : option Z)                  (* 'exit' of the worker *)
  | EShutdown                                (* the host calls the shutdown function *)
  | EMicrotask                               (* the engine runs the next job *)
  | EProcessExit.                            (* 'exit' of the host process *)

(** The host can call only what the handle it was given exposes. *)
Definition host_invoke (c : Invocation) (now : string) (w : World) : World :=
  match loaded w with
  | Some (LoadFulfilled h) =>
      match operation h (op_of c) with
      | Some _ => (invoke c now w).2
      | None => w
      end
  | _ => w
  end.

(** The ['message'] listener, the function [createWorkerHandler] returns:
    it calls [consumeMessage] with the parsed message and the handlers, and
    neither awaits nor catches what the call returns.

    Modelled from the spec: [consumeMessage] of [./messaging] is the
    "generic dispatcher that, given an incoming envelope and a mapping from
    each known type to a handler function, invokes the matching handler
    with the envelope's payload".  It is an asynchronous function: the
    handler runs at once, inside the call, and an exception of the handler
    does not leave the dispatcher but rejects the promise it returns.  The
    listener has dropped that promise, so it returns normally and the
    rejection is handled by nobody. *)
Definition on_message (m : PluginWorkerResult) (w : World) : World :=
  match createWorkerHandler m w with
  | Normal w' => w'
  | Throw e w' => emit (ADispatchRejected e) w'
  end.

Definition on_exit (code : option Z) (w : World) : World :=
  let w1 := with_exitCode code w in
  if exitListener w1 then createWorkerExitHandler w1 else w1.

(** [process.on('exit', ...)]: every cleanup function that is left in the
    set is called.  Those of the other workers act on their own closures;
    of the state kept here they only clear the plugin cache. *)
Definition on_process_exit (w : World) : World :=
  let w1 :=
    if decide (cleanupFunctions w ∖ {[pid w]} = ∅) then w
    else with_nxPluginCache ∅ w in
  if decide (pid w ∈ cleanupFunctions w) then cleanupFunction w1 else w1.

Definition step (ev : Event) (w : World) : World :=
  match ev with
  | EInvoke c now => host_invoke c now w
  | EMessage m => on_message m w
  | EExit code => on_exit code w
  | EShutdown => shutdown w
  | EMicrotask => step_microtask w
  | EProcessExit => on_process_exit w
  end.

Definition run (evs : list Event) (w : World) : World :=
  foldl (λ w' ev, step ev w') w evs.

(** Running the queue until it is empty.  A job leaves the queue when it
    runs and puts back at most one resumption for every parked [await], so
    as many steps as there are jobs and parked functions are enough
    ([drain_dry] below). *)
Fixpoint run_microtasks (fuel : nat) (w : World) : World :=
  match fuel with
  | 0 => w
  | S fuel' => run_microtasks fuel' (step_microtask w)
  end.

Definition drain (w : World) : World :=
  run_microtasks (length (microtasks w) + length (awaiting w)) w.

(** ** Reading the log *)

Definition kills (l : list Action) : list string :=
  omap (λ a, match a with AKill s => Some s | _ => None end) l.

Definition is_settle (i : nat) (a : Action) : bool :=
  match a with ASettle j _ => bool_decide (j = i) | _ => false end.

Definition is_removal (tx : string) (a : Action) : bool :=
  match a with APendingDelete tx' true => bool_decide (tx' = tx) | _ => false end.

Definition is_set (tx : string) (a : Action) : bool :=
  match a with APendingSet tx' _ => bool_decide (tx' = tx) | _ => false end.

Definition tx_of_message (m : PluginWorkerMessage) : option string :=
  match m with
  | Msg_load _ _ => None
  | Msg_createNodes _ _ tx => Some tx
  | Msg_createDependencies _ tx => Some tx
  | Msg_processProjectGraph _ _ tx => Some tx
  end.

Definition is_send (tx : string) (a : Action) : bool :=
  match a with ASend m => bool_decide (tx_of_message m = Some tx) | _ => false end.

Definition count (p : Action → bool) (l : list Action) : nat :=
  length (filter (λ a, p a = true) l).

(** Does an action satisfying [p] come strictly before one satisfying [q]? *)
Fixpoint precedes (p q : Action → bool) (l : list Action) : bool :=
  match l with
  | [] => false
  | a :: l' => (p a && existsb q l') || precedes p q l'
  end.

(** ** Vocabulary of the statements *)

(** No two transactions of the worker share an identifier. *)
Definition unique_ids (w : World) : Prop :=
  ∀ i j ci cj, cells w !! i = Some ci → cells w !! j = Some cj →
    i ≠ j → finally_tx ci ≠ finally_tx cj.

Definition is_load_result (ev : Event) : bool :=
  match ev with EMessage (Res_load_result _) => true | _ => false end.

Definition is_result_message (ev : Event) : bool :=
  match ev with
  | EMessage (Res_createDependenciesResult _ _) => true
  | EMessage (Res_createNodesResult _ _) => true
  | EMessage (Res_processProjectGraphResult _ _) => true
  | _ => false
  end.

Definition outcome_of (r : OpResult) : Outcome :=
  match r with
  | OpOk payload => Fulfilled payload
  | OpFail error => Rejected error
  end.

(** The result envelopes that carry [tx]. *)
Definition results_for (tx : string) (r : OpResult) : list PluginWorkerResult :=
  [Res_createDependenciesResult tx r; Res_createNodesResult tx r;
   Res_processProjectGraphResult tx r].

(** Calling the shutdown function twice is, for the worker and the three
    registries, the same as calling it once (compared when the job queue has
    run dry). *)
Definition shutdown_idempotent_at (w : World) : Prop :=
  let once := drain (step EShutdown w) in
  let twice := drain (step EShutdown (step EShutdown w)) in
  exitListener twice = exitListener once ∧
  kills (log twice) = kills (log once) ∧
  pendingPromises twice = pendingPromises once ∧
  cleanupFunctions twice = cleanupFunctions once ∧
  nxPluginCache twice = nxPluginCache once.

(** *** Invariants of the worlds the program can reach *)

(** [wf]: every registry entry refers, with its three fields, to one
    existing cell; a transaction whose inner promise is settled and whose
    outer promise is not has its [finally] reaction in the job queue; the
    outer promise only ever takes the outcome of the inner one; a queued
    reaction belongs to a settled inner promise; and the log has one
    [ASettle] for every settled inner promise and none for the others. *)
Record wf (w : World) : Prop := {
  wf_entries : ∀ tx pp, (tx, pp) ∈ pendingPromises w →
    promise pp = resolver pp ∧ rejector pp = resolver pp ∧
    resolver pp < length (cells w);
  wf_queued : ∀ i c, cells w !! i = Some c → is_Some (inner c) →
    outer c = None → JFinally i ∈ microtasks w;
  wf_outer : ∀ i c o, cells w !! i = Some c → outer c = Some o →
    inner c = Some o;
  wf_jobs : ∀ i, JFinally i ∈ microtasks w →
    ∃ c, cells w !! i = Some c ∧ is_Some (inner c);
  wf_settles : ∀ i, count (is_settle i) (log w)
    = match cells w !! i ≫= inner with Some _ => 1 | None => 0 end }.

(** [same_view w w']: what the invariants look at is the same in [w'] as
    in [w]. *)
Definition same_view (w w' : World) : Prop :=
  cells w' = cells w ∧ pendingPromises w' = pendingPromises w ∧
  (∀ i, JFinally i ∈ microtasks w' ↔ JFinally i ∈ microtasks w) ∧
  (∀ i, count (is_settle i) (log w') = count (is_settle i) (log w)) ∧
  (∀ tx, count (is_removal tx) (log w') = count (is_removal tx) (log w)).

(** Actions the counts look at. *)
Definition counted (a : Action) : bool :=
  match a with
  | ASettle _ _ => true
  | APendingDelete _ true => true
  | _ => false
  end.

(** The error the exit handler makes, spelled out. *)
Definition exit_error (w : World) (code : option Z) : Value :=
  VError ("Plugin worker " +:+ default (pretty (pid w)) (pluginNames w !! pid w)
            +:+ " exited unexpectedly with code "
            +:+ match code with Some n => pretty n | None => "null" end).

(** When the worker exits with [code], every registered transaction is
    rejected with the error that names the worker and the code. *)
Definition exit_rejects_all (w : World) (code : option Z) : Prop :=
  ∀ tx pp, (tx, pp) ∈ pendingPromises w →
    ∃ c', cells (drain (step (EExit code) w)) !! promise pp = Some c' ∧
          outer c' = Some (Rejected (exit_error w code)).

(** [uniq]: the identifiers of the transactions are pairwise distinct; a
    transaction is in the registry, under its identifier and with
    references to its own cell, exactly as long as its outer promise is
    pending; and the log has one removal of an identifier for every
    transaction whose outer promise is settled, none otherwise. *)
Record uniq (w : World) : Prop := {
  uq_nodup : NoDup (finally_tx <$> cells w);
  uq_registered : ∀ i c, cells w !! i = Some c → outer c = None →
    JsMap.get (finally_tx c) (pendingPromises w)
    = Some {| promise := i; resolver := i; rejector := i |};
  uq_keys : ∀ tx, is_Some (JsMap.get tx (pendingPromises w)) →
    ∃ i c, cells w !! i = Some c ∧ finally_tx c = tx ∧ outer c = None;
  uq_removed : ∀ i c, cells w !! i = Some c →
    count (is_removal (finally_tx c)) (log w) = if outer c is Some _ then 1 else 0;
  uq_unknown : ∀ tx, tx ∉ finally_tx <$> cells w →
    count (is_removal tx) (log w) = 0 }.

(** A call is fresh when the identifier it makes has not been used for
    this worker before. *)
Definition fresh_event (ev : Event) (w : World) : bool :=
  match ev with
  | EInvoke c now =>
      bool_decide (mk_tx (pluginName w) (op_of c) now ∉ finally_tx <$> cells w)
  | _ => true
  end.

Fixpoint fresh_trace (evs : list Event) (w : World) : bool :=
  match evs with
  | [] => true
  | ev :: evs' => fresh_event ev w && fresh_trace evs' (step ev w)
  end.

(** The cells of [cs'] are those of [cs] with, at most, more inner promises
    settled. *)
Definition inner_only (cs cs' : list Cell) : Prop :=
  length cs' = length cs ∧
  ∀ j c, cs !! j = Some c →
    ∃ c', cs' !! j = Some c' ∧ finally_tx c' = finally_tx c ∧ outer c' = outer c.

(** No transaction is left unsettled once the worker has exited. *)
Definition settled_after_exit (w : World) (code : option Z) : Prop :=
  ∀ i c, cells (drain (step (EExit code) w)) !! i = Some c → is_Some (inner c).

(** The events that run [cleanupFunction]. *)
Definition is_shutdown (ev : Event) : bool :=
  match ev with EShutdown | EProcessExit => true | _ => false end.

(** No call of [shutdownPluginWorker] is parked at its [await] or about to
    resume. *)
Definition quiet (w : World) : Prop :=
  awaiting w = [] ∧ JResume ∉ microtasks w.

(** ** A worker to try things on: the plugin "demo" *)

Definition demo_load : LoadSuccess :=
  {| ls_name := "demo"; ls_createNodesPattern := None;
     ls_hasCreateDependencies := true; ls_hasProcessProjectGraph := false |}.

Definition demo_forked : World :=
  loadRemoteNxPlugin ∅ ∅ ∅ (VJson "demo-plugin") (VJson "/workspace") 4242.

Definition demo_world : World :=
  step (EMessage (Res_load_result (LoadOk demo_load))) demo_forked.

Definition demo_call : Invocation :=
  Call_createDependencies (VJson "{}") (VJson "ctx").

Definition demo_tx : string := "demo:createDependencies:12.5".

(** The worker reports the plugin loaded, two calls are made at different
    times, the first is answered. *)
Definition demo_trace : list Event :=
  [EMessage (Res_load_result (LoadOk demo_load));
   EInvoke demo_call "12.5";
   EInvoke demo_call "13.25";
   EMessage (Res_createDependenciesResult demo_tx (OpOk (VJson "[a->b]")));
   EMicrotask].

(** A call is outstanding, the shutdown function is called, and then the
    worker answers the call with a failure. *)
Definition demo_failed_call_during_shutdown : list Event :=
  [EInvoke demo_call "12.5";
   EShutdown;
   EMessage (Res_createDependenciesResult demo_tx (OpFail (VJson "boom")))].

(** ** Further vocabulary: what the worker is sent and how shutdowns end *)

Definition sent (l : list Action) : list PluginWorkerMessage :=
  omap (λ a, match a with ASend m => Some m | _ => None end) l.

Definition is_microtask (ev : Event) : bool :=
  match ev with EMicrotask => true | _ => false end.

Definition is_await (a : Action) : bool :=
  match a with AAwaitAll _ => true | _ => false end.

Definition is_unhandled (a : Action) : bool :=
  match a with AUnhandledRejection _ => true | _ => false end.

Global Instance Job_eq_dec : EqDecision Job.
Proof. solve_decision. Defined.

(** The resumptions of [shutdownPluginWorker] that wait in the job queue. *)
Definition resumes (q : list Job) : nat :=
  length (filter (λ j, j = JResume) q).

(** The calls of [shutdownPluginWorker] that are parked at the [await],
    about to resume, past [worker.kill], or ended by a rejection. *)
Definition accounted (w : World) : nat :=
  length (awaiting w) + resumes (microtasks w) + length (kills (log w))
  + count is_unhandled (log w).

(** [named]: the name kept in the closure of the message handler is the
    one [pluginNames] has for the worker; a resolved load promise comes with a
    name; and there are transactions only once the load promise is
    resolved. *)
Record named (w : World) : Prop := {
  nm_map : ∀ n, pluginName w = Some n → pluginNames w !! pid w = Some n;
  nm_loaded : ∀ h, loaded w = Some (LoadFulfilled h) → is_Some (pluginName w);
  nm_cells : cells w ≠ [] → ∃ h, loaded w = Some (LoadFulfilled h) }.

Definition is_explicit_shutdown (ev : Event) : bool :=
  match ev with EShutdown => true | _ => false end.

(** Every future of the snapshot [s] is fulfilled. *)
Definition all_fulfilled (cs : list Cell) (s : list nat) : Prop :=
  ∀ i, i ∈ s → ∃ c v, cs !! i = Some c ∧ outer c = Some (Fulfilled v).

(** Where the one call of [shutdownPluginWorker] that awaits the snapshot
    [s] stands, [K] being the signals sent before it: parked; about to
    resume, all of [s] fulfilled; or over, having sent [SIGINT] after all of
    [s] was fulfilled or nothing at all. *)
Definition draining (s : list nat) (K : list string) (w : World) : Prop :=
  (awaiting w = [s] ∧ resumes (microtasks w) = 0 ∧ kills (log w) = K) ∨
  (awaiting w = [] ∧ resumes (microtasks w) = 1 ∧ kills (log w) = K ∧
   all_fulfilled (cells w) s) ∨
  (awaiting w = [] ∧ resumes (microtasks w) = 0 ∧
   (kills (log w) = K ∨
    kills (log w) = K ++ ["SIGINT"] ∧ all_fulfilled (cells w) s)).

(** The identifiers of the transactions whose outer promise is pending, in
    the order the transactions were created. *)
Definition in_flight (cs : list Cell) : list string :=
  finally_tx <$> filter (λ c, outer c = None) cs.

(** One future of the snapshot [s] is rejected. *)
Definition some_rejected (cs : list Cell) (s : list nat) : Prop :=
  ∃ i c e, i ∈ s ∧ cs !! i = Some c ∧ outer c = Some (Rejected e).

(** The same call of [shutdownPluginWorker], seen from the other side:
    while it is parked [Promise.all] of its snapshot is pending; once it is
    over it has sent [SIGINT], unless a future of the snapshot is
    rejected. *)
Definition finishing (s : list nat) (K : list string) (w : World) : Prop :=
  (awaiting w = [s] ∧ resumes (microtasks w) = 0 ∧ kills (log w) = K ∧
   Promise_all (cells w) s = AllPending) ∨
  (awaiting w = [] ∧ resumes (microtasks w) = 1 ∧ kills (log w) = K) ∨
  (awaiting w = [] ∧ resumes (microtasks w) = 0 ∧
   (kills (log w) = K ++ ["SIGINT"] ∨
    kills (log w) = K ∧ some_rejected (cells w) s)).

(** * Properties *)

(** Projections of nested updates, and nothing else. *)
Ltac wsimpl :=
  cbn beta iota zeta delta
    [cleanupFunctions pluginNames nxPluginCache pid exitCode exitListener
     pluginName pendingPromises loaded cells microtasks awaiting log
     with_cleanupFunctions with_pluginNames with_nxPluginCache with_exitCode
     with_exitListener with_pluginName with_pendingPromises with_loaded
     with_cells with_microtasks with_awaiting emit
     worker_send worker_kill worker_off_exit pending_set pending_delete].

Tactic Notation "wsimpl" "in" hyp(H) :=
  cbn beta iota zeta delta
    [cleanupFunctions pluginNames nxPluginCache pid exitCode exitListener
     pluginName pendingPromises loaded cells microtasks awaiting log
     with_cleanupFunctions with_pluginNames with_nxPluginCache with_exitCode
     with_exitListener with_pluginName with_pendingPromises with_loaded
     with_cells with_microtasks with_awaiting emit
     worker_send worker_kill worker_off_exit pending_set pending_delete] in H.

(** ** What the promise machinery leaves alone *)

(** [same_host w w']: the module-level state, the worker and the variables
    the closures capture are the same in [w'] as in [w]. *)
Definition same_host (w w' : World) : Prop :=
  cleanupFunctions w' = cleanupFunctions w ∧ pluginNames w' = pluginNames w ∧
  nxPluginCache w' = nxPluginCache w ∧ pid w' = pid w ∧
  exitCode w' = exitCode w ∧ exitListener w' = exitListener w ∧
  pluginName w' = pluginName w ∧ loaded w' = loaded w.

Lemma same_host_refl w : same_host w w.
Proof. by repeat split. Qed.

Lemma same_host_trans w1 w2 w3 :
  same_host w1 w2 → same_host w2 w3 → same_host w1 w3.
Proof.
  unfold same_host. intros (?&?&?&?&?&?&?&?) (?&?&?&?&?&?&?&?).
  repeat split; congruence.
Qed.

Lemma foldl_invariant {A} (P : World → Prop) (f : World → A → World) l w :
  (∀ w' x, P w' → P (f w' x)) → P w → P (foldl f w l).
Proof. intros Hf. revert w. induction l; simpl; auto. Qed.

Lemma same_host_emit a w : same_host w (emit a w).
Proof. by repeat split. Qed.

Lemma same_host_settle i o w : same_host w (settle i o w).
Proof. unfold settle. repeat case_match; by repeat split. Qed.

Lemma same_host_await_all s w : same_host w (await_all s w).
Proof. unfold await_all. case_match; by repeat split. Qed.

Lemma same_host_wake w : same_host w (wake w).
Proof.
  unfold wake. apply (foldl_invariant (same_host w)).
  - intros w' s Hw'. eapply same_host_trans; [done | apply same_host_await_all].
  - by repeat split.
Qed.

Lemma same_host_run_job j w : same_host w (run_job j w).
Proof.
  destruct j as [i|]; simpl; [|by repeat split].
  case_match; [|apply same_host_refl].
  eapply same_host_trans; [|apply same_host_wake]. by repeat split.
Qed.

Lemma same_host_step_microtask w : same_host w (step_microtask w).
Proof.
  unfold step_microtask. case_match; [apply same_host_refl|].
  eapply same_host_trans; [|apply same_host_run_job]. by repeat split.
Qed.

Lemma same_host_invoke c now w : same_host w (invoke c now w).2.
Proof. by repeat split. Qed.

Lemma same_host_exit_handler w : same_host w (createWorkerExitHandler w).
Proof.
  unfold createWorkerExitHandler. apply (foldl_invariant (same_host w)).
  - intros w' kv Hw'. eapply same_host_trans; [done | apply same_host_settle].
  - apply same_host_refl.
Qed.

(** ** The promise returned by [loadRemoteNxPlugin] settles once *)

Lemma same_host_loaded w w' : same_host w w' → loaded w' = loaded w.
Proof. by intros (_&_&_&_&_&_&_&?). Qed.

Lemma same_host_cleanup w :
  same_host (with_nxPluginCache ∅ (worker_off_exit w)) (cleanupFunction w).
Proof.
  unfold cleanupFunction, shutdownPluginWorker.
  eapply same_host_trans; [|apply same_host_await_all]. by repeat split.
Qed.

Lemma process_exit_cases w :
  on_process_exit w = w ∨ on_process_exit w = with_nxPluginCache ∅ w ∨
  on_process_exit w = cleanupFunction w ∨
  on_process_exit w = cleanupFunction (with_nxPluginCache ∅ w).
Proof. unfold on_process_exit. repeat case_decide; auto. Qed.

Lemma loaded_cleanup w : loaded (cleanupFunction w) = loaded w.
Proof. by rewrite (same_host_loaded _ _ (same_host_cleanup w)). Qed.

Lemma loaded_process_exit w : loaded (on_process_exit w) = loaded w.
Proof.
  destruct (process_exit_cases w) as [-> | [-> | [-> | -> ]]];
    by rewrite ?loaded_cleanup.
Qed.

Lemma loaded_step ev w o : loaded w = Some o → loaded (step ev w) = Some o.
Proof.
  intros Hl. destruct ev as [c now|m|code| | |]; simpl.
  - unfold host_invoke. rewrite Hl. by repeat case_match.
  - unfold on_message, createWorkerHandler, on_result, onload, onloadError.
    repeat case_match; simplify_eq; simpl; try done.
    all: try (by rewrite (same_host_loaded _ _ (same_host_settle _ _ w))).
    all: simpl in *; congruence.
  - unfold on_exit. simpl. case_match; [|done].
    by rewrite (same_host_loaded _ _ (same_host_exit_handler _)).
  - unfold shutdown, cleanupFunction, shutdownPluginWorker. simpl.
    by rewrite (same_host_loaded _ _ (same_host_await_all _ _)).
  - by rewrite (same_host_loaded _ _ (same_host_step_microtask w)).
  - by rewrite loaded_process_exit.
Qed.

Lemma loaded_run evs w o : loaded w = Some o → loaded (run evs w) = Some o.
Proof.
  revert w. induction evs as [|ev evs IH]; intros w Hl; simpl; [done|].
  apply IH. by apply loaded_step.
Qed.

(** ** The handle built from a [load-result] *)

(** C7: the handle built from a successful load-result carries the name of
    the payload, has [createNodes] exactly when the payload has a non-empty
    pattern, [createDependencies] exactly when [hasCreateDependencies] is
    true and [processProjectGraph] exactly when [hasProcessProjectGraph] is
    true; an operation reported absent is [undefined]; and the handle a
    pending load promise is resolved with stays the value of that promise
    whatever happens afterwards. *)
Theorem operation_gating (r : LoadSuccess) :
  name (remotePlugin r) = ls_name r ∧
  (is_Some (createNodes (remotePlugin r)) ↔
     ∃ pat, ls_createNodesPattern r = Some pat ∧ pat ≠ "") ∧
  (is_Some (createDependencies (remotePlugin r)) ↔ ls_hasCreateDependencies r = true) ∧
  (createDependencies (remotePlugin r) = None ↔ ls_hasCreateDependencies r = false) ∧
  (is_Some (processProjectGraph (remotePlugin r)) ↔ ls_hasProcessProjectGraph r = true) ∧
  (processProjectGraph (remotePlugin r) = None ↔ ls_hasProcessProjectGraph r = false) ∧
  (∀ w evs, loaded w = None →
     loaded (run evs (step (EMessage (Res_load_result (LoadOk r))) w))
     = Some (LoadFulfilled (remotePlugin r))).
Proof.
  split; [done|]. split; [|split; [|split; [|split; [|split]]]].
  - unfold remotePlugin; simpl. destruct (ls_createNodesPattern r) as [pat|].
    + case_decide; split.
      * by intros [? ?].
      * intros (pat' & ? & ?); simplify_eq.
      * intros _. by exists pat.
      * intros _. by eexists.
    + split; [by intros [? ?] | by intros (? & ? & ?)].
  - simpl. destruct (ls_hasCreateDependencies r); split; try done; by intros [? ?].
  - simpl. by destruct (ls_hasCreateDependencies r).
  - simpl. destruct (ls_hasProcessProjectGraph r); split; try done; by intros [? ?].
  - simpl. by destruct (ls_hasProcessProjectGraph r).
  - intros w evs Hl. apply loaded_run. simpl.
    unfold on_message, createWorkerHandler, onload. simpl. by rewrite Hl.
Qed.

Lemma operation_gating_witness :
  loaded demo_forked = None ∧
  loaded (run [EInvoke demo_call "12.5"; EExit (Some 1%Z); EMicrotask]
            (step (EMessage (Res_load_result (LoadOk demo_load))) demo_forked))
  = Some (LoadFulfilled (remotePlugin demo_load)).
Proof.
  split; [reflexivity|].
  apply (operation_gating demo_load). reflexivity.
Defined.

(** ** Transaction identifiers *)

(** Two calls of one operation that read the same [performance.now()] get
    the same identifier. *)
Lemma same_reading_same_id :
  ¬ unique_ids (run [EInvoke demo_call "12.5"; EInvoke demo_call "12.5"] demo_world).
Proof.
  intros H. by eapply (H 0 1); [reflexivity | reflexivity | |].
Qed.

(** C9, amended: for one plugin name, two identifiers are equal exactly
    when they are made for the same operation from the same rendering of
    the timestamp; the transaction an operation creates carries the
    identifier made from the current plugin name, its operation and the
    timestamp it read. *)
Theorem mk_tx_eq_iff (pn : option string) (op1 op2 : Op) (now1 now2 : string) :
  (mk_tx pn op1 now1 = mk_tx pn op2 now2 ↔ op1 = op2 ∧ now1 = now2) ∧
  (∀ c w, cells (invoke c now1 w).2 !! (invoke c now1 w).1
          = Some {| inner := None;
                    finally_tx := mk_tx (pluginName w) (op_of c) now1;
                    outer := None |}).
Proof.
  split.
  - split; [|by intros [-> ->]].
    intros H. destruct op1, op2; unfold mk_tx in H;
      apply (inj (String.append _)) in H; cbv [String.append] in H;
      by simplify_eq.
  - intros c w. simpl. by rewrite lookup_app_r, Nat.sub_diag.
Qed.

(** ** A result for an unknown transaction *)

(** C2: when the registry has no entry for the identifier of a result
    message, the body the three result handlers share throws a [TypeError]
    where it destructures [pending.get(tx)]: the handler does not complete
    normally, it settles nothing and leaves the world as it was, and
    nothing in it logs or drops the message.  A result handler completes
    normally exactly when the registry has an entry for the identifier. *)
Theorem unknown_tx_throws (w : World) (tx : string) (r : OpResult) :
  JsMap.get tx (pendingPromises w) = None →
  on_result tx r w = Throw TypeError_destructure w ∧
  ∀ w0, (∃ w', on_result tx r w0 = Normal w')
        ↔ is_Some (JsMap.get tx (pendingPromises w0)).
Proof.
  intros Hget. split.
  - unfold on_result. by rewrite Hget.
  - intros w0. unfold on_result.
    destruct (JsMap.get tx (pendingPromises w0)) as [pp|]; split.
    + by eexists.
    + intros _. destruct r; by eexists.
    + by intros [w' ?].
    + by intros [? ?].
Qed.

Lemma unknown_tx_throws_witness :
  JsMap.get "demo:createNodes:99" (pendingPromises demo_world) = None ∧
  on_result "demo:createNodes:99" (OpOk (VJson "[]")) demo_world
  = Throw TypeError_destructure demo_world.
Proof.
  split; [reflexivity|].
  apply (unknown_tx_throws demo_world "demo:createNodes:99" (OpOk (VJson "[]"))).
  reflexivity.
Defined.

(** Each of the three result handlers is that body, and what the listener
    makes of its exception is a rejected promise of the dispatcher: the
    listener itself returns normally, and the world is otherwise as it
    was. *)
Lemma unknown_tx_rejects_dispatch (w : World) (tx : string) (r : OpResult)
    (m : PluginWorkerResult) :
  m ∈ results_for tx r →
  JsMap.get tx (pendingPromises w) = None →
  step (EMessage m) w = emit (ADispatchRejected TypeError_destructure) w.
Proof.
  intros Hm Hget. cbn [step]. unfold on_message.
  assert (createWorkerHandler m w = on_result tx r w) as ->.
  { unfold results_for in Hm. set_unfold in Hm.
    by destruct Hm as [-> | [-> | [-> | []]]]. }
  unfold on_result. by rewrite Hget.
Qed.

(** ** Sending and registering *)

Lemma JsMap_get_set_eq {V} (k : string) (v : V) m :
  JsMap.get k (JsMap.set k v m) = Some v.
Proof.
  induction m as [|[k' v'] m IH]; simpl.
  - by rewrite decide_True.
  - destruct (decide (k' = k)) as [->|Hne]; simpl.
    + by rewrite decide_True.
    + by rewrite decide_False.
Qed.

Lemma JsMap_get_set_ne {V} (k k' : string) (v : V) m :
  k' ≠ k → JsMap.get k' (JsMap.set k v m) = JsMap.get k' m.
Proof.
  intros Hne. induction m as [|[k0 v0] m IH]; simpl.
  - by rewrite decide_False.
  - destruct (decide (k0 = k)) as [->|Hne0]; simpl.
    + by rewrite !decide_False.
    + by rewrite IH.
Qed.

(** In the log of one call of an operation the request is sent first and
    the registry is written after it. *)
Lemma request_sent_before_registration :
  precedes (is_send demo_tx) (is_set demo_tx)
    (log (step (EInvoke demo_call "12.5") demo_world)) = true ∧
  precedes (is_set demo_tx) (is_send demo_tx)
    (log (step (EInvoke demo_call "12.5") demo_world)) = false.
Proof. split; reflexivity. Qed.

(** C3, amended: one call of an operation the handle exposes sends the
    request and then writes the registry entry, in this order and in one
    synchronous run with nothing in between; when the call returns the
    transaction is registered under the identifier the request carries and
    is pending, so a result message handled after the call finds it and
    settles it. *)
Theorem send_then_register (w : World) (h : RemotePlugin) (c : Invocation)
    (now : string) :
  loaded w = Some (LoadFulfilled h) →
  is_Some (operation h (op_of c)) →
  let tx := mk_tx (pluginName w) (op_of c) now in
  let i := length (cells w) in
  let w' := step (EInvoke c now) w in
  log w' = log w ++ [ASend (request_of c tx); APendingSet tx i] ∧
  tx_of_message (request_of c tx) = Some tx ∧
  JsMap.get tx (pendingPromises w')
  = Some {| promise := i; resolver := i; rejector := i |} ∧
  cells w' = cells w ++ [{| inner := None; finally_tx := tx; outer := None |}] ∧
  ∀ r m, m ∈ results_for tx r →
    createWorkerHandler m w' = Normal (settle i (outcome_of r) w').
Proof.
  intros Hl [cl Hop] tx i w'.
  assert (Hw' : w' = (invoke c now w).2).
  { unfold w'. simpl. unfold host_invoke. by rewrite Hl, Hop. }
  assert (Hget : JsMap.get tx (pendingPromises w')
                 = Some {| promise := i; resolver := i; rejector := i |}).
  { rewrite Hw'. simpl. apply JsMap_get_set_eq. }
  split; [|split; [|split; [|split]]].
  - rewrite Hw'. simpl. by rewrite <- app_assoc.
  - by destruct c.
  - done.
  - by rewrite Hw'.
  - intros r m Hm. unfold results_for in Hm.
    assert (createWorkerHandler m w' = on_result tx r w') as ->.
    { set_unfold in Hm. by destruct Hm as [->|[->|[->|[]]]]. }
    unfold on_result. rewrite Hget. by destruct r.
Qed.

Lemma send_then_register_witness :
  loaded demo_world = Some (LoadFulfilled (remotePlugin demo_load)) ∧
  is_Some (operation (remotePlugin demo_load) (op_of demo_call)) ∧
  log (step (EInvoke demo_call "12.5") demo_world)
  = log demo_world
    ++ [ASend (request_of demo_call demo_tx); APendingSet demo_tx 0].
Proof.
  split; [reflexivity|]. split; [by eexists|].
  apply (send_then_register demo_world (remotePlugin demo_load) demo_call "12.5");
    [reflexivity | by eexists].
Defined.

(** ** The load promise and the exit of the worker *)

Lemma loaded_pending_step ev w :
  is_load_result ev = false → loaded w = None → loaded (step ev w) = None.
Proof.
  intros Hev Hl. destruct ev as [c now|m|code| | |]; simpl.
  - unfold host_invoke. by rewrite Hl.
  - unfold on_message, createWorkerHandler, on_result.
    destruct m as [lr|tx r|tx r|tx r]; [done|..];
      repeat case_match; simplify_eq; simpl; try done;
      by rewrite (same_host_loaded _ _ (same_host_settle _ _ w)).
  - unfold on_exit. simpl. case_match; [|done].
    by rewrite (same_host_loaded _ _ (same_host_exit_handler _)).
  - unfold shutdown, cleanupFunction, shutdownPluginWorker. simpl.
    by rewrite (same_host_loaded _ _ (same_host_await_all _ _)).
  - by rewrite (same_host_loaded _ _ (same_host_step_microtask w)).
  - by rewrite loaded_process_exit.
Qed.

(** A [load-result] settles the load promise that is still pending. *)
Lemma load_result_settles (w : World) (r : LoadResult) :
  loaded w = None →
  loaded (step (EMessage (Res_load_result r)) w)
  = Some (match r with
          | LoadOk s => LoadFulfilled (remotePlugin s)
          | LoadFail error => LoadRejected error
          end).
Proof.
  intros Hl. simpl. unfold on_message, createWorkerHandler, onload, onloadError.
  destruct r; simpl; by rewrite Hl.
Qed.

(** C4: as long as no [load-result] message has been handled the promise
    [loadRemoteNxPlugin] returned is pending, whatever else happens: the
    exit of the worker does not reject it. *)
Theorem load_pending_until_load_result (cf : gset N) (names : gmap N string)
    (cache : gmap string N) (plugin root : Value) (child : N) (evs : list Event) :
  forallb (λ ev, negb (is_load_result ev)) evs = true →
  loaded (run evs (loadRemoteNxPlugin cf names cache plugin root child)) = None.
Proof.
  assert (H : ∀ w, loaded w = None →
            forallb (λ ev, negb (is_load_result ev)) evs = true →
            loaded (run evs w) = None); [|by apply H].
  induction evs as [|ev evs IH]; intros w Hl Hevs; simpl in *; [done|].
  apply andb_prop in Hevs as [Hev Hevs]. apply IH; [|done].
  apply loaded_pending_step; [|done]. by destruct (is_load_result ev).
Qed.

Lemma load_pending_until_load_result_witness :
  forallb (λ ev, negb (is_load_result ev)) [EExit (Some 1%Z); EMicrotask] = true ∧
  loaded (run [EExit (Some 1%Z); EMicrotask] demo_forked) = None.
Proof.
  split; [reflexivity|].
  apply (load_pending_until_load_result ∅ ∅ ∅ (VJson "demo-plugin")
           (VJson "/workspace") 4242 [EExit (Some 1%Z); EMicrotask]).
  reflexivity.
Defined.

(** ** What awaiting leaves alone *)

Lemma cells_await_all s w : cells (await_all s w) = cells w.
Proof. unfold await_all. by case_match. Qed.

Lemma pending_await_all s w : pendingPromises (await_all s w) = pendingPromises w.
Proof. unfold await_all. by case_match. Qed.

Lemma cells_wake w : cells (wake w) = cells w.
Proof.
  unfold wake. apply (foldl_invariant (λ w', cells w' = cells w)); [|done].
  intros w' s <-. apply cells_await_all.
Qed.

Lemma pending_wake w : pendingPromises (wake w) = pendingPromises w.
Proof.
  unfold wake.
  apply (foldl_invariant (λ w', pendingPromises w' = pendingPromises w)); [|done].
  intros w' s <-. apply pending_await_all.
Qed.

Lemma same_host_exitListener w w' : same_host w w' → exitListener w' = exitListener w.
Proof. by intros (_&_&_&_&_&?&_). Qed.

Lemma cells_cleanup w : cells (cleanupFunction w) = cells w.
Proof.
  unfold cleanupFunction, shutdownPluginWorker. by rewrite cells_await_all.
Qed.

Lemma cells_process_exit w : cells (on_process_exit w) = cells w.
Proof.
  destruct (process_exit_cases w) as [-> | [-> | [-> | -> ]]];
    by rewrite ?cells_cleanup.
Qed.

Lemma exitListener_cleanup w : exitListener (cleanupFunction w) = false.
Proof. by rewrite (same_host_exitListener _ _ (same_host_cleanup w)). Qed.

Lemma exitListener_shutdown w : exitListener (shutdown w) = false.
Proof.
  unfold shutdown. simpl.
  by rewrite (same_host_exitListener _ _ (same_host_cleanup w)).
Qed.

Lemma exitListener_off_step ev w :
  exitListener w = false → exitListener (step ev w) = false.
Proof.
  intros Hoff. destruct ev as [c now|m|code| | |]; simpl.
  - unfold host_invoke. by repeat case_match.
  - unfold on_message, createWorkerHandler, on_result, onload, onloadError.
    repeat case_match; simplify_eq; simpl; try done;
      by rewrite (same_host_exitListener _ _ (same_host_settle _ _ w)).
  - unfold on_exit. simpl. by rewrite Hoff.
  - apply exitListener_shutdown.
  - by rewrite (same_host_exitListener _ _ (same_host_step_microtask w)).
  - destruct (process_exit_cases w) as [-> | [-> | [-> | -> ]]];
      by rewrite ?exitListener_cleanup.
Qed.

Lemma exitListener_off_run evs w :
  exitListener w = false → exitListener (run evs w) = false.
Proof.
  revert w. induction evs as [|ev evs IH]; intros w Hoff; simpl; [done|].
  by apply IH, exitListener_off_step.
Qed.

(** Only a result message, or the exit handler while it is attached,
    settles the inner promise of a transaction. *)
Lemma inner_kept_step ev w i c :
  exitListener w = false → is_result_message ev = false →
  cells w !! i = Some c →
  ∃ c', cells (step ev w) !! i = Some c' ∧ inner c' = inner c.
Proof.
  intros Hoff Hev Hc. destruct ev as [c0 now|m|code| | |]; simpl.
  - unfold host_invoke. repeat case_match; try by eexists.
    simpl. exists c. split; [|done]. by apply lookup_app_l_Some.
  - destruct m as [[r|e]|tx r|tx r|tx r]; try done; exists c;
      unfold on_message, createWorkerHandler, onload, onloadError;
      by repeat case_match.
  - unfold on_exit. simpl. rewrite Hoff. by exists c.
  - unfold shutdown, cleanupFunction, shutdownPluginWorker. simpl.
    rewrite cells_await_all. by exists c.
  - unfold step_microtask. destruct (microtasks w) as [|[j|] q]; [by exists c| |by exists c].
    simpl. destruct (cells w !! j) as [cj|] eqn:Hj; [|by exists c].
    rewrite cells_wake. simpl.
    destruct (decide (i = j)) as [->|Hne].
    + exists (set_outer (inner cj) cj). split; [|by simplify_eq].
      apply list_lookup_insert_eq. by eapply lookup_lt_Some.
    + exists c. by rewrite list_lookup_insert_ne.
  - exists c. by rewrite cells_process_exit.
Qed.

(** ** Exit after shutdown *)

Lemma shutdown_log w :
  ∃ rest, log (shutdown w)
          = log w ++ [AOffExit; AAwaitAll (promise <$> JsMap.values (pendingPromises w))]
              ++ rest.
Proof.
  unfold shutdown, cleanupFunction, shutdownPluginWorker, await_all. simpl.
  case_match; simpl; rewrite <- !app_assoc; simpl; by eexists.
Qed.

(** C10: the shutdown function takes the exit handler off the worker before
    it awaits the pending futures; from then on the handler stays off, so an
    exit of the worker only records the exit code and rejects nothing; and
    no event other than a result message settles a transaction. *)
Theorem exit_after_shutdown (w : World) :
  (∃ rest, log (step EShutdown w)
           = log w ++ [AOffExit; AAwaitAll (promise <$> JsMap.values (pendingPromises w))]
               ++ rest) ∧
  (∀ evs, exitListener (run evs (step EShutdown w)) = false) ∧
  (∀ evs code, step (EExit code) (run evs (step EShutdown w))
               = with_exitCode code (run evs (step EShutdown w))) ∧
  (∀ evs ev i c, is_result_message ev = false →
     cells (run evs (step EShutdown w)) !! i = Some c →
     ∃ c', cells (step ev (run evs (step EShutdown w))) !! i = Some c' ∧
           inner c' = inner c).
Proof.
  assert (Hoff : ∀ evs, exitListener (run evs (step EShutdown w)) = false).
  { intros evs. apply exitListener_off_run, exitListener_shutdown. }
  split; [|split; [done|split]].
  - apply shutdown_log.
  - intros evs code. simpl. unfold on_exit. simpl. by rewrite Hoff.
  - intros evs ev i c Hev Hc. by apply inner_kept_step.
Qed.

Lemma exit_after_shutdown_witness :
  is_result_message (EExit (Some 1%Z)) = false ∧
  cells (run [] (step EShutdown (step (EInvoke demo_call "12.5") demo_world))) !! 0
  = Some {| inner := None; finally_tx := demo_tx; outer := None |} ∧
  ∃ c', cells (step (EExit (Some 1%Z))
                 (run [] (step EShutdown (step (EInvoke demo_call "12.5") demo_world))))
          !! 0 = Some c' ∧
        inner c' = None.
Proof.
  split; [reflexivity|]. split; [reflexivity|].
  apply (proj2 (proj2 (proj2
    (exit_after_shutdown (step (EInvoke demo_call "12.5") demo_world))))
    [] (EExit (Some 1%Z)) 0
    {| inner := None; finally_tx := demo_tx; outer := None |});
    reflexivity.
Defined.

(** ** Calling the shutdown function again *)

Lemma kills_app l1 l2 : kills (l1 ++ l2) = kills l1 ++ kills l2.
Proof. apply omap_app. Qed.

Lemma shutdown_empty_registry w :
  pendingPromises w = [] →
  shutdown w
  = with_cleanupFunctions (λ s, s ∖ {[pid w]})
      (with_microtasks (λ q, q ++ [JResume])
         (emit (AAwaitAll []) (with_nxPluginCache ∅ (worker_off_exit w)))).
Proof.
  intros Hp. unfold shutdown, cleanupFunction, shutdownPluginWorker. simpl.
  by rewrite Hp.
Qed.

Lemma run_resume_only fuel n w :
  microtasks w = replicate n JResume → n ≤ fuel →
  kills (log (run_microtasks fuel w)) = kills (log w) ++ replicate n "SIGINT".
Proof.
  revert n w. induction fuel as [|fuel IH]; intros n w Hq Hn; simpl.
  - assert (n = 0) as -> by lia. by rewrite app_nil_r.
  - destruct n as [|n]; simpl in Hq.
    + unfold step_microtask. rewrite Hq. rewrite (IH 0); [done|done|lia].
    + unfold step_microtask. rewrite Hq. simpl.
      rewrite (IH n); [|done|lia]. simpl.
      by rewrite kills_app, <- app_assoc.
Qed.

Lemma drain_resume_only w n :
  microtasks w = replicate n JResume →
  kills (log (drain w)) = kills (log w) ++ replicate n "SIGINT".
Proof.
  intros Hq. unfold drain. apply run_resume_only; [done|].
  rewrite Hq, length_replicate. lia.
Qed.

(** After a second call of the shutdown function the worker has been sent
    a second [SIGINT]. *)
Lemma second_shutdown_kills_again : ¬ shutdown_idempotent_at demo_world.
Proof. intros (_ & Hkills & _). vm_compute in Hkills. discriminate. Qed.

Lemma shutdown_once_kills w :
  pendingPromises w = [] → microtasks w = [] →
  kills (log (drain (shutdown w))) = kills (log w) ++ ["SIGINT"].
Proof.
  intros Hp Hq. rewrite (drain_resume_only _ 1).
  - rewrite (shutdown_empty_registry w) by done.
    wsimpl. rewrite !kills_app. simpl. by rewrite !app_nil_r.
  - rewrite (shutdown_empty_registry w) by done. wsimpl. by rewrite Hq.
Qed.

Lemma shutdown_twice_kills w :
  pendingPromises w = [] → microtasks w = [] →
  kills (log (drain (shutdown (shutdown w)))) = kills (log w) ++ ["SIGINT"; "SIGINT"].
Proof.
  intros Hp Hq.
  assert (Hs1 : pendingPromises (shutdown w) = []).
  { unfold shutdown, cleanupFunction, shutdownPluginWorker. simpl.
    by rewrite pending_await_all. }
  rewrite (drain_resume_only _ 2).
  - rewrite (shutdown_empty_registry (shutdown w)), (shutdown_empty_registry w) by done.
    wsimpl. rewrite !kills_app. simpl. by rewrite !app_nil_r.
  - rewrite (shutdown_empty_registry (shutdown w)), (shutdown_empty_registry w) by done.
    wsimpl. by rewrite Hq.
Qed.

Lemma pending_shutdown w : pendingPromises (shutdown w) = pendingPromises w.
Proof.
  unfold shutdown, cleanupFunction, shutdownPluginWorker. wsimpl.
  by rewrite pending_await_all.
Qed.

Lemma cells_shutdown w : cells (shutdown w) = cells w.
Proof.
  unfold shutdown, cleanupFunction, shutdownPluginWorker. wsimpl.
  by rewrite cells_await_all.
Qed.

Lemma pid_shutdown w : pid (shutdown w) = pid w.
Proof.
  unfold shutdown. wsimpl.
  destruct (same_host_cleanup w) as (_ & _ & _ & H & _). by rewrite H.
Qed.

Lemma cache_shutdown w : nxPluginCache (shutdown w) = ∅.
Proof.
  unfold shutdown. wsimpl.
  destruct (same_host_cleanup w) as (_ & _ & H & _). by rewrite H.
Qed.

Lemma cleanup_shutdown w :
  cleanupFunctions (shutdown w) = cleanupFunctions w ∖ {[pid w]}.
Proof.
  unfold shutdown. wsimpl.
  destruct (same_host_cleanup w) as (H & _). by rewrite H.
Qed.

(** C6, amended: a second call of the shutdown function leaves the exit
    listener, the pending registry, the cleanup-function set, the plugin
    cache and the promises as the first call left them, but it runs the
    shutdown of the worker again: it awaits a snapshot of the registry
    again, and when the registry is empty and nothing else is queued each
    call leads to its own [SIGINT], two calls to two. *)
Theorem shutdown_again (w : World) :
  let w1 := step EShutdown w in
  let w2 := step EShutdown w1 in
  exitListener w2 = exitListener w1 ∧
  pendingPromises w2 = pendingPromises w1 ∧
  cleanupFunctions w2 = cleanupFunctions w1 ∧
  nxPluginCache w2 = nxPluginCache w1 ∧
  cells w2 = cells w1 ∧
  (∃ rest, log w2
           = log w1 ++ [AOffExit; AAwaitAll (promise <$> JsMap.values (pendingPromises w1))]
               ++ rest) ∧
  (pendingPromises w = [] → microtasks w = [] → awaiting w = [] →
   kills (log (drain w1)) = kills (log w) ++ ["SIGINT"] ∧
   kills (log (drain w2)) = kills (log w) ++ ["SIGINT"; "SIGINT"]).
Proof.
  intros w1 w2. subst w1 w2.
  change (step EShutdown (step EShutdown w)) with (shutdown (shutdown w)).
  change (step EShutdown w) with (shutdown w).
  split; [by rewrite !exitListener_shutdown|].
  split; [by rewrite !pending_shutdown|].
  split; [rewrite !cleanup_shutdown, pid_shutdown; set_solver|].
  split; [by rewrite !cache_shutdown|].
  split; [by rewrite !cells_shutdown|].
  split; [apply (shutdown_log (shutdown w))|].
  intros Hp Hq Ha. split.
  - apply shutdown_once_kills; assumption.
  - apply shutdown_twice_kills; assumption.
Qed.

Lemma shutdown_again_witness :
  pendingPromises demo_world = [] ∧ microtasks demo_world = [] ∧
  awaiting demo_world = [] ∧
  kills (log (drain (step EShutdown demo_world)))
  = kills (log demo_world) ++ ["SIGINT"] ∧
  kills (log (drain (step EShutdown (step EShutdown demo_world))))
  = kills (log demo_world) ++ ["SIGINT"; "SIGINT"].
Proof.
  split; [reflexivity|]. split; [reflexivity|]. split; [reflexivity|].
  apply (proj2 (proj2 (proj2 (proj2 (proj2 (proj2 (shutdown_again demo_world)))))));
    reflexivity.
Defined.

(** ** The invariants *)

Lemma count_snoc p l a : count p (l ++ [a]) = count p l + (if p a then 1 else 0).
Proof.
  unfold count. rewrite filter_app, length_app. f_equal.
  destruct (p a) eqn:Hp.
  - by rewrite filter_cons_True.
  - rewrite filter_cons_False; [done|]. by rewrite Hp.
Qed.

Lemma count_snoc_settle i l a :
  counted a = false → count (is_settle i) (l ++ [a]) = count (is_settle i) l.
Proof.
  intros Ha. rewrite count_snoc.
  destruct a; simpl in *; first [lia | discriminate].
Qed.

Lemma count_snoc_removal tx l a :
  counted a = false → count (is_removal tx) (l ++ [a]) = count (is_removal tx) l.
Proof.
  intros Ha. rewrite count_snoc.
  destruct a as [| |tx' []| | | | | |]; simpl in *; first [lia | discriminate].
Qed.

Lemma same_view_refl w : same_view w w.
Proof. by repeat split. Qed.

Lemma same_view_trans w1 w2 w3 :
  same_view w1 w2 → same_view w2 w3 → same_view w1 w3.
Proof.
  intros (Hc & Hp & Hq & Hs & Hr) (Hc' & Hp' & Hq' & Hs' & Hr').
  split; [congruence|]. split; [congruence|].
  split; [intros i; by rewrite Hq', Hq|].
  split; [intros i; by rewrite Hs', Hs|].
  intros tx. by rewrite Hr', Hr.
Qed.

Lemma same_view_emit a w : counted a = false → same_view w (emit a w).
Proof.
  intros Ha. split; [done|]. split; [done|]. split; [done|].
  split; [intros i; by apply count_snoc_settle|].
  intros tx. by apply count_snoc_removal.
Qed.

Lemma same_view_resume w : same_view w (with_microtasks (λ q, q ++ [JResume]) w).
Proof.
  split; [done|]. split; [done|]. split; [|done].
  intros i. simpl. rewrite elem_of_app, list_elem_of_singleton. naive_solver.
Qed.

Lemma same_view_awaiting f w : same_view w (with_awaiting f w).
Proof. by repeat split. Qed.

Lemma same_view_await_all s w : same_view w (await_all s w).
Proof.
  unfold await_all. case_match.
  - apply same_view_awaiting.
  - apply same_view_resume.
  - by apply same_view_emit.
Qed.

Lemma same_view_wake w : same_view w (wake w).
Proof.
  unfold wake. apply (foldl_invariant (same_view w)).
  - intros w' s Hw'. eapply same_view_trans; [done | apply same_view_await_all].
  - apply same_view_awaiting.
Qed.

Lemma wf_same_view w w' : wf w → same_view w w' → wf w'.
Proof.
  intros [He Hq Ho Hj Hs] (Hc & Hp & Hm & Hsc & _).
  split; rewrite ?Hc, ?Hp.
  - done.
  - intros i c ???. apply Hm. eauto.
  - done.
  - intros i ?%Hm. eauto.
  - intros i. by rewrite Hsc.
Qed.

Lemma JsMap_elem_of_set {V} (k k' : string) (v v' : V) m :
  (k', v') ∈ JsMap.set k v m → (k', v') = (k, v) ∨ (k', v') ∈ m.
Proof.
  induction m as [|[k0 v0] m IH]; simpl.
  - rewrite list_elem_of_singleton. auto.
  - destruct (decide (k0 = k)) as [->|Hne]; rewrite !elem_of_cons; naive_solver.
Qed.

Lemma JsMap_elem_of_delete {V} (k k' : string) (v' : V) m :
  (k', v') ∈ JsMap.delete k m → (k', v') ∈ m.
Proof.
  induction m as [|[k0 v0] m IH]; simpl; [done|].
  destruct (decide (k0 = k)) as [->|Hne]; rewrite !elem_of_cons; naive_solver.
Qed.

Lemma wf_settle i o w : wf w → wf (settle i o w).
Proof.
  intros Hwf. unfold settle.
  destruct (cells w !! i) as [c|] eqn:Hc; [|done].
  destruct (inner c) eqn:Hin; [done|].
  destruct Hwf as [He Hq Ho Hj Hs]. split; wsimpl.
  - intros tx pp Hpp. rewrite length_insert. by apply (He tx).
  - intros j cj Hcj Hsome Hout. rewrite elem_of_app, list_elem_of_singleton.
    destruct (decide (j = i)) as [->|Hne]; [by right|].
    rewrite list_lookup_insert_ne in Hcj by done. left. eauto.
  - intros j cj o' Hcj Hout.
    apply list_lookup_insert_Some in Hcj as [(-> & <- & _)|[Hne Hcj]]; [|eauto].
    simpl in Hout. apply (Ho _ _ _ Hc) in Hout. congruence.
  - intros j Hjq. destruct (decide (j = i)) as [->|Hne].
    + exists (set_inner o c). split; [|by eexists].
      apply list_lookup_insert_eq. by eapply lookup_lt_Some.
    + rewrite list_lookup_insert_ne by done. apply Hj.
      apply elem_of_app in Hjq as [?|Hjq]; [done|].
      apply list_elem_of_singleton in Hjq. by simplify_eq.
  - intros j. rewrite count_snoc, Hs. simpl.
    destruct (decide (j = i)) as [->|Hne].
    + rewrite list_lookup_insert_eq by (by eapply lookup_lt_Some).
      rewrite Hc. simpl. rewrite Hin. by rewrite bool_decide_eq_true_2.
    + rewrite list_lookup_insert_ne by done.
      rewrite bool_decide_eq_false_2 by done. lia.
Qed.

Lemma wf_alloc tx w :
  wf w →
  wf (with_cells (λ cs, cs ++ [{| inner := None; finally_tx := tx; outer := None |}]) w).
Proof.
  intros [He Hq Ho Hj Hs]. split; wsimpl.
  - intros tx' pp Hpp. rewrite length_app. simpl.
    destruct (He _ _ Hpp) as (? & ? & ?). repeat split; [done..|lia].
  - intros j cj Hcj Hsome Hout.
    apply lookup_app_Some in Hcj as [Hcj|[_ Hcj]]; [eauto|].
    apply list_lookup_singleton_Some in Hcj as [_ <-].
    by destruct Hsome.
  - intros j cj o Hcj Hout.
    apply lookup_app_Some in Hcj as [Hcj|[_ Hcj]]; [eauto|].
    by apply list_lookup_singleton_Some in Hcj as [_ <-].
  - intros j Hjq. destruct (Hj _ Hjq) as (c & Hc & Hsome).
    exists c. split; [|done]. by apply lookup_app_l_Some.
  - intros j. rewrite Hs.
    destruct (cells w !! j) as [c|] eqn:Hc.
    + by rewrite (lookup_app_l_Some _ _ _ _ Hc).
    + simpl. destruct ((cells w ++ _) !! j) as [c'|] eqn:Hc'; [|done].
      apply lookup_app_Some in Hc' as [Hc'|[_ Hc']]; [congruence|].
      by apply list_lookup_singleton_Some in Hc' as [_ <-].
Qed.

Lemma wf_pending_set tx i w :
  wf w → i < length (cells w) →
  wf (pending_set tx {| promise := i; resolver := i; rejector := i |} w).
Proof.
  intros [He Hq Ho Hj Hs] Hi. split; wsimpl; [|done..|].
  - intros tx' pp [Hpp|Hpp]%JsMap_elem_of_set; [by simplify_eq|eauto].
  - intros j. by rewrite count_snoc_settle.
Qed.

(** The reaction of [finally] for cell [i], up to the wake-up. *)
Lemma wf_finally i c q w :
  wf w → microtasks w = JFinally i :: q → cells w !! i = Some c →
  wf (with_cells (λ cs, <[i := set_outer (inner c) c]> cs)
        (pending_delete (finally_tx c) (with_microtasks (λ _, q) w))).
Proof.
  intros [He Hq Ho Hj Hs] Hm Hc. split; wsimpl.
  - intros tx pp Hpp%JsMap_elem_of_delete. rewrite length_insert. eauto.
  - intros j cj Hcj Hsome Hout.
    apply list_lookup_insert_Some in Hcj as [(-> & <- & _)|[Hne Hcj]].
    + simpl in *. destruct Hsome as [? Hsome]. congruence.
    + specialize (Hq _ _ Hcj Hsome Hout). rewrite Hm in Hq.
      apply elem_of_cons in Hq as [?|?]; [by simplify_eq|done].
  - intros j cj o Hcj Hout.
    apply list_lookup_insert_Some in Hcj as [(-> & <- & _)|[Hne Hcj]]; [done|eauto].
  - intros j Hjq. destruct (Hj j) as (cj & Hcj & Hsome).
    { rewrite Hm. by right. }
    destruct (decide (j = i)) as [->|Hne].
    + exists (set_outer (inner c) c). split; [|by simplify_eq].
      apply list_lookup_insert_eq. by eapply lookup_lt_Some.
    + exists cj. by rewrite list_lookup_insert_ne.
  - intros j. rewrite count_snoc, Hs. simpl.
    replace (if match JsMap.has (finally_tx c) (pendingPromises w) with
                | true => false | false => false end then 1 else 0) with 0
      by (by destruct (JsMap.has _ _)).
    destruct (decide (j = i)) as [->|Hne].
    + rewrite list_lookup_insert_eq by (by eapply lookup_lt_Some).
      rewrite Hc. simpl. lia.
    + rewrite list_lookup_insert_ne by done. lia.
Qed.

Lemma wf_init cf names cache plugin root child :
  wf (loadRemoteNxPlugin cf names cache plugin root child).
Proof.
  split; simpl.
  - intros tx pp Hpp. by apply elem_of_nil in Hpp.
  - intros i c Hc. done.
  - intros i c o Hc. done.
  - intros i Hi. by apply elem_of_nil in Hi.
  - intros i. done.
Qed.

Lemma wf_invoke c now w : wf w → wf (invoke c now w).2.
Proof.
  intros Hwf. unfold invoke, registerPendingPromise. cbn [snd].
  apply wf_pending_set.
  - eapply wf_same_view; [by apply wf_alloc|]. by apply same_view_emit.
  - wsimpl. rewrite length_app. simpl. lia.
Qed.

Lemma wf_exit_handler w : wf w → wf (createWorkerExitHandler w).
Proof.
  intros Hwf. unfold createWorkerExitHandler.
  apply (foldl_invariant wf); [|done]. intros w' kv. apply wf_settle.
Qed.

Lemma same_view_cleanup w : same_view w (cleanupFunction w).
Proof.
  unfold cleanupFunction, shutdownPluginWorker.
  eapply same_view_trans; [|apply same_view_await_all].
  eapply same_view_trans; [|by apply same_view_emit].
  eapply same_view_trans; [|by repeat split].
  unfold worker_off_exit. eapply same_view_trans; [|by apply same_view_emit].
  by repeat split.
Qed.

Lemma same_view_shutdown w : same_view w (shutdown w).
Proof.
  unfold shutdown. eapply same_view_trans; [apply same_view_cleanup|].
  by repeat split.
Qed.

Lemma same_view_process_exit w : same_view w (on_process_exit w).
Proof.
  destruct (process_exit_cases w) as [-> | [-> | [-> | -> ]]].
  - apply same_view_refl.
  - by repeat split.
  - apply same_view_cleanup.
  - eapply same_view_trans; [|apply same_view_cleanup]. by repeat split.
Qed.

Lemma wf_step_microtask w : wf w → wf (step_microtask w).
Proof.
  intros Hwf. unfold step_microtask.
  destruct (microtasks w) as [|[i|] q] eqn:Hm; [done| |].
  - unfold run_job.
    replace (cells (with_microtasks (λ _, q) w)) with (cells w) by done.
    destruct (cells w !! i) as [c|] eqn:Hc.
    + eapply wf_same_view; [by eapply wf_finally|apply same_view_wake].
    + destruct (wf_jobs _ Hwf i) as (c & Hc' & _); [|congruence].
      rewrite Hm. by left.
  - unfold run_job. eapply wf_same_view; [done|].
    eapply same_view_trans; [|by apply same_view_emit].
    split; [done|]. split; [done|]. split; [|done].
    intros i. wsimpl. rewrite Hm, elem_of_cons. naive_solver.
Qed.

Lemma wf_step ev w : wf w → wf (step ev w).
Proof.
  intros Hwf. destruct ev as [c now|m|code| | |]; simpl.
  - unfold host_invoke. repeat case_match; try done. by apply wf_invoke.
  - unfold on_message, createWorkerHandler, on_result, onload, onloadError.
    repeat case_match; simplify_eq; try done; try (by apply wf_settle).
    all: eapply wf_same_view; [done|]; try (by repeat split).
    all: by apply same_view_emit.
  - unfold on_exit. case_match.
    + apply wf_exit_handler. eapply wf_same_view; [done|]. by repeat split.
    + eapply wf_same_view; [done|]. by repeat split.
  - eapply wf_same_view; [done|]. apply same_view_shutdown.
  - by apply wf_step_microtask.
  - eapply wf_same_view; [done|]. apply same_view_process_exit.
Qed.

Lemma wf_run evs w : wf w → wf (run evs w).
Proof.
  revert w. induction evs as [|ev evs IH]; intros w Hwf; simpl; [done|].
  by apply IH, wf_step.
Qed.

Lemma wf_run_microtasks fuel w : wf w → wf (run_microtasks fuel w).
Proof.
  revert w. induction fuel as [|fuel IH]; intros w Hwf; simpl; [done|].
  by apply IH, wf_step_microtask.
Qed.

(** ** The job queue runs dry *)

Lemma await_all_measure s w :
  length (microtasks (await_all s w)) + length (awaiting (await_all s w))
  ≤ S (length (microtasks w) + length (awaiting w)).
Proof.
  unfold await_all. case_match; wsimpl; rewrite ?length_app; simpl; lia.
Qed.

Lemma wake_measure w :
  length (microtasks (wake w)) + length (awaiting (wake w))
  ≤ length (microtasks w) + length (awaiting w).
Proof.
  unfold wake.
  assert (H : ∀ l w0,
    length (microtasks (foldl (λ w' s, await_all s w') w0 l))
    + length (awaiting (foldl (λ w' s, await_all s w') w0 l))
    ≤ length l + (length (microtasks w0) + length (awaiting w0))).
  { induction l as [|s l IH]; intros w0; simpl; [lia|].
    etrans; [apply IH|]. pose proof (await_all_measure s w0). lia. }
  etrans; [apply H|]. wsimpl. simpl. lia.
Qed.

Lemma step_microtask_measure w :
  microtasks w ≠ [] →
  length (microtasks (step_microtask w)) + length (awaiting (step_microtask w))
  < length (microtasks w) + length (awaiting w).
Proof.
  intros Hne. unfold step_microtask.
  destruct (microtasks w) as [|[i|] q] eqn:Hm; [done| |].
  - unfold run_job.
    replace (cells (with_microtasks (λ _, q) w)) with (cells w) by done.
    destruct (cells w !! i) as [c|].
    + eapply Nat.le_lt_trans; [apply wake_measure|]. wsimpl. simpl. lia.
    + wsimpl. simpl. lia.
  - unfold run_job. wsimpl. simpl. lia.
Qed.

Lemma run_microtasks_idle fuel w :
  microtasks w = [] → run_microtasks fuel w = w.
Proof.
  intros He. induction fuel as [|fuel IH]; simpl; [done|].
  unfold step_microtask. by rewrite He.
Qed.

Lemma run_microtasks_dry fuel w :
  length (microtasks w) + length (awaiting w) ≤ fuel →
  microtasks (run_microtasks fuel w) = [].
Proof.
  revert w. induction fuel as [|fuel IH]; intros w Hle; simpl.
  - destruct (microtasks w); [done|simpl in Hle; lia].
  - destruct (decide (microtasks w = [])) as [He|Hne].
    + rewrite run_microtasks_idle; unfold step_microtask; by rewrite He.
    + apply IH. pose proof (step_microtask_measure w Hne). lia.
Qed.

Lemma drain_dry w : microtasks (drain w) = [].
Proof. unfold drain. by apply run_microtasks_dry. Qed.

Lemma wf_drain w : wf w → wf (drain w).
Proof. apply wf_run_microtasks. Qed.

(** ** The exit handler *)

Lemma exit_message_same_host w w' :
  same_host w w' → exit_message w' = exit_message w.
Proof.
  intros (_ & Hn & _ & Hp & He & _). unfold exit_message. by rewrite Hn, Hp, He.
Qed.

Lemma settle_cell i o w j c :
  cells w !! j = Some c →
  ∃ c', cells (settle i o w) !! j = Some c' ∧
        finally_tx c' = finally_tx c ∧ outer c' = outer c ∧
        inner c' = if decide (j = i) then Some (default o (inner c)) else inner c.
Proof.
  intros Hc. unfold settle.
  destruct (cells w !! i) as [ci|] eqn:Hci.
  - destruct (inner ci) eqn:Hin.
    + exists c. repeat split; [done|]. case_decide; [|done]. simplify_eq.
      by rewrite Hin.
    + wsimpl. destruct (decide (j = i)) as [->|Hne].
      * rewrite Hci in Hc. injection Hc as <-.
        exists (set_inner o ci). rewrite Hin. repeat split.
        apply list_lookup_insert_eq. by eapply lookup_lt_Some.
      * exists c. by rewrite list_lookup_insert_ne.
  - exists c. repeat split; [done|]. case_decide; [|done]. simplify_eq.
Qed.

Lemma exit_handler_cell w j c :
  cells w !! j = Some c →
  ∃ c', cells (createWorkerExitHandler w) !! j = Some c' ∧
        finally_tx c' = finally_tx c ∧ outer c' = outer c ∧
        inner c' = if decide (j ∈ (λ kv, rejector kv.2) <$> pendingPromises w)
                   then Some (default (Rejected (VError (exit_message w))) (inner c))
                   else inner c.
Proof.
  unfold createWorkerExitHandler.
  generalize (pendingPromises w) as l.
  assert (H : ∀ (l : list (string * PendingPromise)) w' c,
    exit_message w' = exit_message w →
    cells w' !! j = Some c →
    ∃ c', cells (foldl (λ w' kv, settle (rejector kv.2)
                         (Rejected (VError (exit_message w'))) w') w' l) !! j
          = Some c' ∧
          finally_tx c' = finally_tx c ∧ outer c' = outer c ∧
          inner c' = if decide (j ∈ (λ kv, rejector kv.2) <$> l)
                     then Some (default (Rejected (VError (exit_message w))) (inner c))
                     else inner c); [|by eauto].
  clear c. induction l as [|kv l IH]; intros w' c Hmsg Hc; simpl.
  - exists c. by repeat split.
  - destruct (settle_cell (rejector kv.2) (Rejected (VError (exit_message w'))) w' j c Hc)
      as (c1 & Hc1 & Htx1 & Hout1 & Hin1).
    destruct (IH (settle (rejector kv.2) (Rejected (VError (exit_message w'))) w') c1)
      as (c' & Hc' & Htx' & Hout' & Hin'); [|done|].
    { by rewrite (exit_message_same_host _ _ (same_host_settle _ _ _)). }
    exists c'. split; [done|]. split; [congruence|]. split; [congruence|].
    rewrite Hin', Hin1, Hmsg.
    destruct (decide (j = rejector kv.2)) as [->|Hne].
    + rewrite (decide_True (P := _ ∈ _ :: _)) by set_solver.
      case_decide; [|done]. by destruct (inner c).
    + case_decide.
      * by rewrite decide_True by set_solver.
      * by rewrite decide_False by set_solver.
Qed.

Lemma microtask_cell w j c :
  cells w !! j = Some c →
  ∃ c', cells (step_microtask w) !! j = Some c' ∧
        finally_tx c' = finally_tx c ∧ inner c' = inner c.
Proof.
  intros Hc. unfold step_microtask.
  destruct (microtasks w) as [|[i|] q]; [by exists c| |by exists c].
  unfold run_job.
  replace (cells (with_microtasks (λ _, q) w)) with (cells w) by done.
  destruct (cells w !! i) as [ci|] eqn:Hci; [|by exists c].
  rewrite cells_wake. wsimpl.
  destruct (decide (j = i)) as [->|Hne].
  - rewrite Hci in Hc. injection Hc as <-.
    exists (set_outer (inner ci) ci). repeat split.
    apply list_lookup_insert_eq. by eapply lookup_lt_Some.
  - exists c. by rewrite list_lookup_insert_ne.
Qed.

Lemma run_microtasks_cell fuel w j c :
  cells w !! j = Some c →
  ∃ c', cells (run_microtasks fuel w) !! j = Some c' ∧
        finally_tx c' = finally_tx c ∧ inner c' = inner c.
Proof.
  revert w c. induction fuel as [|fuel IH]; intros w c Hc; simpl; [by exists c|].
  destruct (microtask_cell w j c Hc) as (c1 & Hc1 & Htx1 & Hin1).
  destruct (IH _ _ Hc1) as (c' & Hc' & Htx' & Hin').
  exists c'. split; [done|]. split; congruence.
Qed.

(** After the queue has run dry every settled transaction has passed its
    outcome on to the promise the caller holds. *)
Lemma drain_settled w j c :
  wf w → cells w !! j = Some c → is_Some (inner c) →
  ∃ c', cells (drain w) !! j = Some c' ∧ finally_tx c' = finally_tx c ∧
        inner c' = inner c ∧ outer c' = inner c.
Proof.
  intros Hwf Hc Hsome.
  destruct (run_microtasks_cell (length (microtasks w) + length (awaiting w)) w j c Hc)
    as (c' & Hc' & Htx' & Hin').
  fold (drain w) in Hc'. exists c'. split; [done|]. split; [done|]. split; [done|].
  pose proof (wf_drain w Hwf) as Hwf'.
  destruct (outer c') as [o|] eqn:Hout.
  - rewrite <- Hin'. symmetry. by eapply wf_outer.
  - pose proof (wf_queued _ Hwf' j c' Hc') as Hq. rewrite drain_dry in Hq.
    rewrite Hin' in Hq. specialize (Hq Hsome Hout). by apply elem_of_nil in Hq.
Qed.

Lemma exit_message_error w code :
  VError (exit_message (with_exitCode code w)) = exit_error w code.
Proof. done. Qed.

(** Two calls are outstanding, the shutdown function has been called, the
    worker dies: neither call is rejected. *)
Lemma no_rejection_once_shut_down :
  ¬ exit_rejects_all
      (run [EInvoke demo_call "12.5"; EInvoke demo_call "13.25"; EShutdown] demo_world)
      (Some 137%Z).
Proof.
  intros H.
  destruct (H demo_tx {| promise := 0; resolver := 0; rejector := 0 |})
    as (c' & Hc' & Hout).
  - vm_compute. left.
  - vm_compute in Hc'. injection Hc' as <-. discriminate.
Qed.

(** C8, amended: when the worker exits while the exit handler is attached,
    the job queue runs dry and every transaction in the registry ends
    settled: a transaction that was still pending is rejected, inner and
    outer promise alike, with the error "Plugin worker <name, or pid when no
    name is known> exited unexpectedly with code <code>"; one that a result
    had already settled keeps that outcome. *)
Theorem exit_rejects_registered (cf : gset N) (names : gmap N string)
    (cache : gmap string N) (plugin root : Value) (child : N)
    (evs : list Event) (code : option Z) :
  let w := run evs (loadRemoteNxPlugin cf names cache plugin root child) in
  exitListener w = true →
  microtasks (drain (step (EExit code) w)) = [] ∧
  ∀ tx pp, (tx, pp) ∈ pendingPromises w →
    ∃ c c', cells w !! resolver pp = Some c ∧
            cells (drain (step (EExit code) w)) !! promise pp = Some c' ∧
            inner c' = outer c' ∧
            outer c' = Some (default (Rejected (exit_error w code)) (inner c)).
Proof.
  intros w Hon. split; [apply drain_dry|]. intros tx pp Hpp.
  assert (Hwf : wf w) by apply wf_run, wf_init.
  destruct (wf_entries _ Hwf _ _ Hpp) as (Hpr & Hrj & Hlt).
  destruct (lookup_lt_is_Some_2 _ _ Hlt) as [c Hc].
  exists c.
  assert (Hstep : step (EExit code) w = createWorkerExitHandler (with_exitCode code w)).
  { simpl. unfold on_exit. wsimpl. by rewrite Hon. }
  rewrite Hstep, Hpr.
  destruct (exit_handler_cell (with_exitCode code w) (resolver pp) c Hc)
    as (c1 & Hc1 & _ & _ & Hin1).
  rewrite decide_True in Hin1.
  2:{ apply list_elem_of_fmap. exists (tx, pp). by split. }
  destruct (drain_settled (createWorkerExitHandler (with_exitCode code w))
              (resolver pp) c1) as (c' & Hc' & _ & Hin' & Hout').
  - apply wf_exit_handler. eapply wf_same_view; [done|]. by repeat split.
  - done.
  - rewrite Hin1. by eexists.
  - exists c'. split; [done|]. split; [done|]. split; [congruence|].
    by rewrite Hout', Hin1, exit_message_error.
Qed.

Lemma exit_rejects_registered_witness :
  exitListener (run [EMessage (Res_load_result (LoadOk demo_load));
                     EInvoke demo_call "12.5"] demo_forked) = true ∧
  (demo_tx, {| promise := 0; resolver := 0; rejector := 0 |})
  ∈ pendingPromises (run [EMessage (Res_load_result (LoadOk demo_load));
                          EInvoke demo_call "12.5"] demo_forked) ∧
  ∃ c c', cells (run [EMessage (Res_load_result (LoadOk demo_load));
                      EInvoke demo_call "12.5"] demo_forked) !! 0 = Some c ∧
          cells (drain (step (EExit (Some 1%Z))
                   (run [EMessage (Res_load_result (LoadOk demo_load));
                         EInvoke demo_call "12.5"] demo_forked))) !! 0 = Some c' ∧
          inner c' = outer c' ∧
          outer c' = Some (default
            (Rejected (exit_error
               (run [EMessage (Res_load_result (LoadOk demo_load));
                     EInvoke demo_call "12.5"] demo_forked) (Some 1%Z)))
            (inner c)).
Proof.
  split; [reflexivity|]. split; [vm_compute; left|].
  apply (proj2 (exit_rejects_registered ∅ ∅ ∅ (VJson "demo-plugin")
           (VJson "/workspace") 4242
           [EMessage (Res_load_result (LoadOk demo_load)); EInvoke demo_call "12.5"]
           (Some 1%Z) eq_refl) demo_tx
           {| promise := 0; resolver := 0; rejector := 0 |}).
  vm_compute. left.
Defined.

(** The spec's crash example: the future of the outstanding call is
    rejected with an error that mentions "demo" and "1". *)
Example crash_example :
  cells (drain (step (EExit (Some 1%Z)) (step (EInvoke demo_call "12.5") demo_world)))
  = [{| inner := Some (Rejected (VError "Plugin worker demo exited unexpectedly with code 1"));
        finally_tx := demo_tx;
        outer := Some (Rejected (VError "Plugin worker demo exited unexpectedly with code 1")) |}].
Proof. reflexivity. Qed.

(** The spec's end-to-end example. *)
Example end_to_end_example :
  cells (drain (step (EMessage (Res_createDependenciesResult demo_tx (OpOk (VJson "[a->b]"))))
                  (step (EInvoke demo_call "12.5") demo_world)))
  = [{| inner := Some (Fulfilled (VJson "[a->b]")); finally_tx := demo_tx;
        outer := Some (Fulfilled (VJson "[a->b]")) |}].
Proof. reflexivity. Qed.

(** ** Distinct identifiers: the registry and the removals *)

Lemma JsMap_get_delete_eq {V} (k : string) (m : list (string * V)) :
  JsMap.get k (JsMap.delete k m) = None.
Proof.
  induction m as [|[k0 v0] m IH]; simpl; [done|].
  destruct (decide (k0 = k)) as [->|Hne]; simpl; [done|].
  by rewrite decide_False.
Qed.

Lemma JsMap_get_delete_ne {V} (k k' : string) (m : list (string * V)) :
  k' ≠ k → JsMap.get k' (JsMap.delete k m) = JsMap.get k' m.
Proof.
  intros Hne. induction m as [|[k0 v0] m IH]; simpl; [done|].
  destruct (decide (k0 = k)) as [->|Hne0]; simpl.
  - by rewrite decide_False.
  - by rewrite IH.
Qed.

Lemma JsMap_has_true {V} (k : string) (m : list (string * V)) :
  JsMap.has k m = true ↔ is_Some (JsMap.get k m).
Proof. unfold JsMap.has. apply bool_decide_eq_true. Qed.

Lemma JsMap_get_head {V} (k : string) (v : V) m :
  JsMap.get k ((k, v) :: m) = Some v.
Proof. simpl. by rewrite decide_True. Qed.

Lemma inner_only_refl cs : inner_only cs cs.
Proof. split; [done|]. intros j c Hc. by exists c. Qed.

Lemma inner_only_trans cs1 cs2 cs3 :
  inner_only cs1 cs2 → inner_only cs2 cs3 → inner_only cs1 cs3.
Proof.
  intros [Hl H12] [Hl' H23]. split; [congruence|].
  intros j c Hc. destruct (H12 _ _ Hc) as (c2 & Hc2 & ? & ?).
  destruct (H23 _ _ Hc2) as (c3 & Hc3 & ? & ?).
  exists c3. split; [done|]. split; congruence.
Qed.

Lemma inner_only_back cs cs' j c' :
  inner_only cs cs' → cs' !! j = Some c' →
  ∃ c, cs !! j = Some c ∧ finally_tx c' = finally_tx c ∧ outer c' = outer c.
Proof.
  intros [Hl H] Hc'.
  destruct (lookup_lt_is_Some_2 cs j) as [c Hc].
  { rewrite <- Hl. by eapply lookup_lt_Some. }
  destruct (H _ _ Hc) as (c'' & Hc'' & ? & ?). exists c. by simplify_eq.
Qed.

Lemma inner_only_txs cs cs' :
  inner_only cs cs' → finally_tx <$> cs' = finally_tx <$> cs.
Proof.
  intros Hio. apply list_eq. intros j. rewrite !list_lookup_fmap.
  destruct (cs !! j) as [c|] eqn:Hc.
  - destruct (proj2 Hio _ _ Hc) as (c' & -> & Htx & _). simpl. by rewrite Htx.
  - destruct (cs' !! j) as [c'|] eqn:Hc'; [|done].
    destruct (inner_only_back _ _ _ _ Hio Hc') as (c & ? & _). congruence.
Qed.

Lemma inner_only_settle i o w : inner_only (cells w) (cells (settle i o w)).
Proof.
  split.
  - unfold settle. repeat case_match; wsimpl; by rewrite ?length_insert.
  - intros j c Hc. destruct (settle_cell i o w j c Hc) as (c' & ? & ? & ? & _).
    by exists c'.
Qed.

Lemma inner_only_exit_handler w :
  inner_only (cells w) (cells (createWorkerExitHandler w)).
Proof.
  unfold createWorkerExitHandler.
  apply (foldl_invariant (λ w', inner_only (cells w) (cells w'))).
  - intros w' kv Hw'. eapply inner_only_trans; [done|apply inner_only_settle].
  - apply inner_only_refl.
Qed.

Lemma pending_settle i o w : pendingPromises (settle i o w) = pendingPromises w.
Proof. unfold settle. by repeat case_match. Qed.

Lemma removals_settle i o w tx :
  count (is_removal tx) (log (settle i o w)) = count (is_removal tx) (log w).
Proof.
  unfold settle. repeat case_match; try done. wsimpl. by rewrite count_snoc.
Qed.

Lemma pending_exit_handler w :
  pendingPromises (createWorkerExitHandler w) = pendingPromises w.
Proof.
  unfold createWorkerExitHandler.
  apply (foldl_invariant (λ w', pendingPromises w' = pendingPromises w)); [|done].
  intros w' kv <-. apply pending_settle.
Qed.

Lemma removals_exit_handler w tx :
  count (is_removal tx) (log (createWorkerExitHandler w)) = count (is_removal tx) (log w).
Proof.
  unfold createWorkerExitHandler.
  apply (foldl_invariant
           (λ w', count (is_removal tx) (log w') = count (is_removal tx) (log w)));
    [|done].
  intros w' kv <-. apply removals_settle.
Qed.

Lemma uniq_inner_only w w' :
  uniq w → inner_only (cells w) (cells w') →
  pendingPromises w' = pendingPromises w →
  (∀ tx, count (is_removal tx) (log w') = count (is_removal tx) (log w)) →
  uniq w'.
Proof.
  intros [Hnd Hreg Hkeys Hrem Hunk] Hio Hp Hcount.
  pose proof (inner_only_txs _ _ Hio) as Htxs.
  split; rewrite ?Htxs, ?Hp.
  - done.
  - intros j c' Hc' Hout.
    destruct (inner_only_back _ _ _ _ Hio Hc') as (c & Hc & Htx & Ho).
    rewrite Htx. apply (Hreg j); [done|congruence].
  - intros tx Hsome. destruct (Hkeys _ Hsome) as (j & c & Hc & Htx & Ho).
    destruct (proj2 Hio _ _ Hc) as (c' & Hc' & Htx' & Ho').
    exists j, c'. split; [done|]. split; congruence.
  - intros j c' Hc'.
    destruct (inner_only_back _ _ _ _ Hio Hc') as (c & Hc & Htx & Ho).
    rewrite Hcount, Htx, Ho. by apply (Hrem j).
  - intros tx Htx. rewrite Hcount. by apply Hunk.
Qed.

Lemma uniq_same_view w w' : uniq w → same_view w w' → uniq w'.
Proof.
  intros Hu (Hc & Hp & _ & _ & Hr). apply (uniq_inner_only w); [done| |done|done].
  rewrite Hc. apply inner_only_refl.
Qed.

Lemma uniq_settle i o w : uniq w → uniq (settle i o w).
Proof.
  intros Hu. apply (uniq_inner_only w); [done|..].
  - apply inner_only_settle.
  - apply pending_settle.
  - intros tx. apply removals_settle.
Qed.

Lemma uniq_exit_handler w : uniq w → uniq (createWorkerExitHandler w).
Proof.
  intros Hu. apply (uniq_inner_only w); [done|..].
  - apply inner_only_exit_handler.
  - apply pending_exit_handler.
  - intros tx. apply removals_exit_handler.
Qed.

Lemma txs_lookup_inj (cs : list Cell) i j ci cj :
  NoDup (finally_tx <$> cs) → cs !! i = Some ci → cs !! j = Some cj →
  finally_tx ci = finally_tx cj → i = j.
Proof.
  intros Hnd Hi Hj Htx.
  apply (NoDup_lookup _ i j (finally_tx ci) Hnd); rewrite list_lookup_fmap.
  - by rewrite Hi.
  - by rewrite Hj, Htx.
Qed.

Lemma txs_elem_of (cs : list Cell) i c :
  cs !! i = Some c → finally_tx c ∈ finally_tx <$> cs.
Proof.
  intros Hc. apply list_elem_of_fmap. exists c. split; [done|].
  by eapply list_elem_of_lookup_2.
Qed.

Lemma uniq_init cf names cache plugin root child :
  uniq (loadRemoteNxPlugin cf names cache plugin root child).
Proof.
  split; simpl.
  - constructor.
  - done.
  - by intros tx [? ?].
  - done.
  - done.
Qed.

Lemma uniq_invoke c now w :
  uniq w → mk_tx (pluginName w) (op_of c) now ∉ finally_tx <$> cells w →
  uniq (invoke c now w).2.
Proof.
  intros [Hnd Hreg Hkeys Hrem Hunk] Hfresh.
  unfold invoke, registerPendingPromise. cbn [snd].
  set (tx := mk_tx (pluginName w) (op_of c) now) in *.
  split; wsimpl.
  - rewrite fmap_app. apply NoDup_app. split; [done|]. split.
    + intros x Hx Hx'. simpl in Hx'. apply list_elem_of_singleton in Hx'.
      by subst x.
    + simpl. apply NoDup_singleton.
  - intros j cj Hcj Hout.
    apply lookup_app_Some in Hcj as [Hcj|[Hlen Hcj]].
    + rewrite JsMap_get_set_ne; [by apply Hreg|].
      intros Heq. apply Hfresh. rewrite <- Heq. by eapply txs_elem_of.
    + apply list_lookup_singleton_Some in Hcj as [Hj <-]. simpl.
      rewrite JsMap_get_set_eq. by replace j with (length (cells w)) by lia.
  - intros tx' Hsome. destruct (decide (tx' = tx)) as [->|Hne].
    + exists (length (cells w)), {| inner := None; finally_tx := tx; outer := None |}.
      split; [|done]. by rewrite lookup_app_r, Nat.sub_diag.
    + rewrite JsMap_get_set_ne in Hsome by done.
      destruct (Hkeys _ Hsome) as (j & cj & Hcj & Htx & Hout).
      exists j, cj. split; [|done]. by apply lookup_app_l_Some.
  - intros j cj Hcj. rewrite !count_snoc_removal by done.
    apply lookup_app_Some in Hcj as [Hcj|[Hlen Hcj]]; [by apply (Hrem j)|].
    apply list_lookup_singleton_Some in Hcj as [Hj <-]. simpl. by apply Hunk.
  - intros tx' Htx'. rewrite !count_snoc_removal by done. apply Hunk.
    intros Hin. apply Htx'. rewrite fmap_app. apply elem_of_app. by left.
Qed.

Lemma uniq_finally i c q w :
  wf w → uniq w → microtasks w = JFinally i :: q → cells w !! i = Some c →
  uniq (with_cells (λ cs, <[i := set_outer (inner c) c]> cs)
          (pending_delete (finally_tx c) (with_microtasks (λ _, q) w))).
Proof.
  intros Hwf [Hnd Hreg Hkeys Hrem Hunk] Hm Hc.
  assert (Hin : is_Some (inner c)).
  { destruct (wf_jobs _ Hwf i) as (c0 & Hc0 & Hsome); [rewrite Hm; by left|].
    by simplify_eq. }
  assert (Htxs : finally_tx <$> <[i := set_outer (inner c) c]> (cells w)
                 = finally_tx <$> cells w).
  { rewrite list_fmap_insert. simpl. apply list_insert_id.
    by rewrite list_lookup_fmap, Hc. }
  assert (Hfound : JsMap.has (finally_tx c) (pendingPromises w)
                   = if outer c is Some _ then false else true).
  { destruct (outer c) as [o|] eqn:Hout.
    - apply not_true_is_false. intros Hhas%JsMap_has_true.
      destruct (Hkeys _ Hhas) as (j & cj & Hcj & Htx & Hoj).
      assert (j = i) as -> by (by eapply txs_lookup_inj).
      congruence.
    - apply JsMap_has_true. rewrite (Hreg i c Hc Hout). by eexists. }
  split; wsimpl; rewrite ?Htxs.
  - done.
  - intros j cj Hcj Hout.
    apply list_lookup_insert_Some in Hcj as [(-> & <- & _)|[Hne Hcj]].
    + simpl in Hout. destruct Hin as [? Hin]. congruence.
    + rewrite JsMap_get_delete_ne; [by apply Hreg|].
      intros Heq. apply Hne. by eapply txs_lookup_inj.
  - intros tx Hsome.
    destruct (decide (tx = finally_tx c)) as [->|Hne].
    { rewrite JsMap_get_delete_eq in Hsome. by destruct Hsome. }
    rewrite JsMap_get_delete_ne in Hsome by done.
    destruct (Hkeys _ Hsome) as (j & cj & Hcj & Htx & Hout).
    exists j, cj. split; [|done].
    rewrite list_lookup_insert_ne; [done|]. intros ->. by simplify_eq.
  - intros j cj Hcj. rewrite count_snoc, Hfound.
    apply list_lookup_insert_Some in Hcj as [(-> & <- & _)|[Hne Hcj]].
    + simpl. rewrite (Hrem _ c Hc). destruct Hin as [o Hin]. rewrite Hin.
      destruct (outer c); simpl; [lia|].
      by rewrite bool_decide_eq_true_2.
    + rewrite (Hrem j cj Hcj).
      assert (finally_tx c ≠ finally_tx cj).
      { intros Heq. apply Hne. by eapply txs_lookup_inj. }
      destruct (outer c); simpl; [lia|].
      rewrite bool_decide_eq_false_2 by done. lia.
  - intros tx Htx. rewrite count_snoc, Hfound, (Hunk tx Htx).
    destruct (outer c); simpl; [done|].
    rewrite bool_decide_eq_false_2; [done|].
    intros Heq. apply Htx. rewrite <- Heq. by eapply txs_elem_of.
Qed.

Lemma JsMap_get_elem_of {V} (k : string) (v : V) m :
  JsMap.get k m = Some v → (k, v) ∈ m.
Proof.
  induction m as [|[k0 v0] m IH]; simpl; [done|].
  destruct (decide (k0 = k)) as [->|Hne]; intros H.
  - simplify_eq. by left.
  - right. by apply IH.
Qed.

Lemma uniq_step_microtask w : wf w → uniq w → uniq (step_microtask w).
Proof.
  intros Hwf Hu. unfold step_microtask.
  destruct (microtasks w) as [|[i|] q] eqn:Hm; [done| |].
  - unfold run_job.
    replace (cells (with_microtasks (λ _, q) w)) with (cells w) by done.
    destruct (cells w !! i) as [c|] eqn:Hc.
    + eapply uniq_same_view; [by eapply uniq_finally|apply same_view_wake].
    + destruct (wf_jobs _ Hwf i) as (c & Hc' & _); [|congruence].
      rewrite Hm. by left.
  - unfold run_job. eapply uniq_same_view; [done|].
    eapply same_view_trans; [|by apply same_view_emit].
    split; [done|]. split; [done|]. split; [|done].
    intros i. wsimpl. rewrite Hm, elem_of_cons. naive_solver.
Qed.

Lemma uniq_step ev w :
  wf w → uniq w → fresh_event ev w = true → uniq (step ev w).
Proof.
  intros Hwf Hu Hfresh. destruct ev as [c now|m|code| | |]; simpl.
  - unfold host_invoke. repeat case_match; try done.
    apply uniq_invoke; [done|]. simpl in Hfresh. by apply bool_decide_eq_true in Hfresh.
  - unfold on_message, createWorkerHandler, on_result, onload, onloadError.
    repeat case_match; simplify_eq; try done; try (by apply uniq_settle).
    all: eapply uniq_same_view; [done|]; try (by repeat split).
    all: by apply same_view_emit.
  - unfold on_exit. case_match.
    + apply uniq_exit_handler. eapply uniq_same_view; [done|]. by repeat split.
    + eapply uniq_same_view; [done|]. by repeat split.
  - eapply uniq_same_view; [done|]. apply same_view_shutdown.
  - by apply uniq_step_microtask.
  - eapply uniq_same_view; [done|]. apply same_view_process_exit.
Qed.

Lemma inv_run evs w :
  wf w → uniq w → fresh_trace evs w = true → wf (run evs w) ∧ uniq (run evs w).
Proof.
  revert w. induction evs as [|ev evs IH]; intros w Hwf Hu Hfresh; simpl; [done|].
  simpl in Hfresh. apply andb_prop in Hfresh as [Hev Hevs].
  apply IH; [by apply wf_step|by apply uniq_step|done].
Qed.

Lemma uniq_run_microtasks fuel w : wf w → uniq w → uniq (run_microtasks fuel w).
Proof.
  revert w. induction fuel as [|fuel IH]; intros w Hwf Hu; simpl; [done|].
  apply IH; [by apply wf_step_microtask|by apply uniq_step_microtask].
Qed.

Lemma length_cells_step_microtask w :
  length (cells (step_microtask w)) = length (cells w).
Proof.
  unfold step_microtask. destruct (microtasks w) as [|[i|] q]; [done| |done].
  unfold run_job.
  replace (cells (with_microtasks (λ _, q) w)) with (cells w) by done.
  destruct (cells w !! i); [|done].
  rewrite cells_wake. wsimpl. by rewrite length_insert.
Qed.

Lemma length_cells_run_microtasks fuel w :
  length (cells (run_microtasks fuel w)) = length (cells w).
Proof.
  revert w. induction fuel as [|fuel IH]; intros w; simpl; [done|].
  by rewrite IH, length_cells_step_microtask.
Qed.

(** A settled inner promise keeps its outcome, whatever comes next. *)
Lemma inner_stable_step ev w i c o :
  cells w !! i = Some c → inner c = Some o →
  ∃ c', cells (step ev w) !! i = Some c' ∧ inner c' = Some o.
Proof.
  intros Hc Hin. destruct ev as [c0 now|m|code| | |]; cbn [step].
  - unfold host_invoke. repeat case_match; try by eexists.
    simpl. exists c. split; [|done]. by apply lookup_app_l_Some.
  - assert (Hs : ∀ j o', ∃ c', cells (settle j o' w) !! i = Some c' ∧ inner c' = Some o).
    { intros j o'. destruct (settle_cell j o' w i c Hc) as (c' & Hc' & _ & _ & Hin').
      exists c'. split; [done|]. rewrite Hin', Hin. by case_decide. }
    unfold on_message, createWorkerHandler, on_result, onload, onloadError.
    repeat case_match; simplify_eq; try done; try (by exists c).
  - unfold on_exit. case_match; [|by exists c].
    destruct (exit_handler_cell (with_exitCode code w) i c Hc)
      as (c' & Hc' & _ & _ & Hin').
    exists c'. split; [done|]. rewrite Hin', Hin. by case_decide.
  - exists c. by rewrite cells_shutdown.
  - destruct (microtask_cell w i c Hc) as (c' & Hc' & _ & Hin').
    exists c'. split; [done|]. congruence.
  - exists c. by rewrite cells_process_exit.
Qed.

(** ** Single settlement *)

(** The shutdown function has been called while a call is outstanding and
    then the worker dies: the transaction is never settled. *)
Lemma unsettled_after_shutdown_and_exit :
  ¬ settled_after_exit (run [EInvoke demo_call "12.5"; EShutdown] demo_world)
      (Some 1%Z).
Proof.
  intros H. destruct (H 0 {| inner := None; finally_tx := demo_tx; outer := None |})
    as [o Ho]; [reflexivity|discriminate].
Qed.

(** C1, amended: as long as no call reuses an identifier of the worker,
    every transaction is settled at most once and a settled one keeps its
    outcome whatever happens next; its registry entry is removed at most
    once, and only after the settlement, when the [finally] reaction runs;
    and when the worker exits while the exit handler is still attached,
    then, once the queued jobs have run, the registry is empty and every
    transaction has been settled exactly once (by the result it had
    received, otherwise by the exit error) and removed exactly once. *)
Theorem single_settlement (cf : gset N) (names : gmap N string)
    (cache : gmap string N) (plugin root : Value) (child : N) (evs : list Event) :
  fresh_trace evs (loadRemoteNxPlugin cf names cache plugin root child) = true →
  let w := run evs (loadRemoteNxPlugin cf names cache plugin root child) in
  (∀ i, count (is_settle i) (log w) ≤ 1) ∧
  (∀ i c, cells w !! i = Some c →
     count (is_settle i) (log w) = (if inner c is Some _ then 1 else 0) ∧
     count (is_removal (finally_tx c)) (log w) = (if outer c is Some _ then 1 else 0) ∧
     (∀ o, outer c = Some o → inner c = Some o) ∧
     (∀ ev o, inner c = Some o →
        ∃ c', cells (step ev w) !! i = Some c' ∧ inner c' = Some o)) ∧
  (∀ code, exitListener w = true →
     microtasks (drain (step (EExit code) w)) = [] ∧
     pendingPromises (drain (step (EExit code) w)) = [] ∧
     ∀ i c, cells w !! i = Some c →
       ∃ c', cells (drain (step (EExit code) w)) !! i = Some c' ∧
             inner c' = Some (default (Rejected (exit_error w code)) (inner c)) ∧
             outer c' = inner c' ∧
             count (is_settle i) (log (drain (step (EExit code) w))) = 1 ∧
             count (is_removal (finally_tx c)) (log (drain (step (EExit code) w))) = 1).
Proof.
  intros Hfresh w.
  destruct (inv_run evs _ (wf_init cf names cache plugin root child)
              (uniq_init cf names cache plugin root child) Hfresh) as [Hwf Hu].
  fold w in Hwf, Hu.
  split; [|split].
  - intros i. rewrite (wf_settles _ Hwf). case_match; lia.
  - intros i c Hc. split; [|split; [|split]].
    + rewrite (wf_settles _ Hwf), Hc. simpl. by destruct (inner c).
    + by apply (uq_removed _ Hu i).
    + intros o. by apply (wf_outer _ Hwf i).
    + intros ev o. by apply inner_stable_step.
  - intros code Hon. split; [apply drain_dry|].
    assert (Hstep : step (EExit code) w = createWorkerExitHandler (with_exitCode code w)).
    { simpl. unfold on_exit. wsimpl. by rewrite Hon. }
    rewrite Hstep. set (w0 := with_exitCode code w).
    assert (Hwf0 : wf w0) by (eapply wf_same_view; [done|by repeat split]).
    assert (Hu0 : uniq w0) by (eapply uniq_same_view; [done|by repeat split]).
    set (w1 := createWorkerExitHandler w0).
    assert (Hwf1 : wf w1) by by apply wf_exit_handler.
    assert (Hu1 : uniq w1) by by apply uniq_exit_handler.
    pose proof (wf_drain _ Hwf1) as Hwf2.
    assert (Hu2 : uniq (drain w1)) by by apply uniq_run_microtasks.
    assert (Hall : ∀ i c, cells w !! i = Some c →
      ∃ c', cells (drain w1) !! i = Some c' ∧
            inner c' = Some (default (Rejected (exit_error w code)) (inner c)) ∧
            outer c' = inner c' ∧ finally_tx c' = finally_tx c).
    { intros i c Hc.
      destruct (exit_handler_cell w0 i c Hc) as (c1 & Hc1 & Htx1 & _ & Hin1).
      assert (Hin1' : inner c1
                = Some (default (Rejected (exit_error w code)) (inner c))).
      { rewrite Hin1. fold (exit_message w0).
        replace (VError (exit_message w0)) with (exit_error w code) by done.
        destruct (inner c) as [o|] eqn:Hin; [by case_decide|].
        rewrite decide_True; [done|].
        assert (Hout : outer c = None).
        { destruct (outer c) as [o|] eqn:Hout; [|done].
          pose proof (wf_outer _ Hwf _ _ _ Hc Hout). congruence. }
        pose proof (uq_registered _ Hu _ _ Hc Hout) as Hget.
        apply JsMap_get_elem_of in Hget.
        apply list_elem_of_fmap. eexists. split; [|exact Hget]. done. }
      destruct (drain_settled w1 i c1 Hwf1 Hc1) as (c' & Hc' & Htx' & Hin' & Hout').
      { rewrite Hin1'. by eexists. }
      exists c'. split; [done|]. split; [congruence|]. split; congruence. }
    split.
    + destruct (pendingPromises (drain w1)) as [|[k v] m] eqn:Hp; [done|].
      destruct (uq_keys _ Hu2 k) as (j & cj & Hcj & _ & Hout).
      { rewrite Hp, JsMap_get_head. by eexists. }
      destruct (lookup_lt_is_Some_2 (cells w) j) as [c Hc].
      { apply lookup_lt_Some in Hcj. unfold drain in Hcj.
        rewrite length_cells_run_microtasks in Hcj. unfold w1 in Hcj.
        rewrite (proj1 (inner_only_exit_handler w0)) in Hcj. exact Hcj. }
      destruct (Hall _ _ Hc) as (c' & Hc' & Hin' & Hout' & _).
      simplify_eq. congruence.
    + intros i c Hc. destruct (Hall _ _ Hc) as (c' & Hc' & Hin' & Hout' & Htx').
      exists c'. split; [done|]. split; [done|]. split; [done|]. split.
      * rewrite (wf_settles _ Hwf2), Hc'. simpl. by rewrite Hin'.
      * rewrite <- Htx', (uq_removed _ Hu2 i c' Hc'), Hout', Hin'. done.
Qed.

Lemma single_settlement_witness :
  fresh_trace demo_trace demo_forked = true ∧
  exitListener (run demo_trace demo_forked) = true ∧
  (∀ i, count (is_settle i) (log (run demo_trace demo_forked)) ≤ 1) ∧
  pendingPromises (drain (step (EExit (Some 1%Z)) (run demo_trace demo_forked))) = [].
Proof.
  split; [reflexivity|]. split; [reflexivity|].
  pose proof (single_settlement ∅ ∅ ∅ (VJson "demo-plugin") (VJson "/workspace")
                4242 demo_trace eq_refl) as (Hle & _ & Hexit).
  split; [exact Hle|]. exact (proj1 (proj2 (Hexit (Some 1%Z) eq_refl))).
Defined.

(** ** Shutdown when an awaited call fails *)

Lemma kills_snoc l a :
  (∀ s, a ≠ AKill s) → kills (l ++ [a]) = kills l.
Proof.
  intros Ha. rewrite kills_app. destruct a; simpl; try by rewrite app_nil_r.
  by destruct (Ha signal).
Qed.

Lemma quiet_settle i o w K :
  quiet w ∧ kills (log w) = K →
  quiet (settle i o w) ∧ kills (log (settle i o w)) = K.
Proof.
  intros [[Ha Hq] Hk]. unfold settle. repeat case_match; try done.
  split; [split|]; wsimpl.
  - done.
  - rewrite elem_of_app, list_elem_of_singleton. naive_solver.
  - by rewrite kills_snoc.
Qed.

Lemma quiet_step ev w K :
  is_shutdown ev = false →
  quiet w ∧ kills (log w) = K →
  quiet (step ev w) ∧ kills (log (step ev w)) = K.
Proof.
  intros Hev HQ. destruct ev as [c now|m|code| | |]; cbn [step]; [| | |done| |done].
  - unfold host_invoke. repeat case_match; try done.
    destruct HQ as [[Ha Hq] Hk].
    unfold invoke, registerPendingPromise. cbn [snd].
    split; [by split|]. wsimpl. by rewrite !kills_snoc.
  - unfold on_message, createWorkerHandler, on_result, onload, onloadError.
    repeat case_match; simplify_eq; try done; try (by apply quiet_settle).
    all: destruct HQ as [[Ha Hq] Hk]; split; [by split|]; wsimpl; try done.
    all: by rewrite kills_snoc.
  - unfold on_exit. case_match; [|done]. unfold createWorkerExitHandler.
    apply (foldl_invariant (λ w', quiet w' ∧ kills (log w') = K)); [|exact HQ].
    intros w' kv. apply quiet_settle.
  - unfold step_microtask.
    destruct (microtasks w) as [|[i|] q] eqn:Hm; [exact HQ| |];
      destruct HQ as [[Ha Hq] Hk]; rewrite Hm in Hq.
    + unfold run_job.
      replace (cells (with_microtasks (λ _, q) w)) with (cells w) by done.
      destruct (cells w !! i) as [ci|].
      * unfold wake. wsimpl. rewrite Ha. simpl.
        split; [split; [done|]|].
        -- wsimpl. intros Hin. apply Hq. by right.
        -- wsimpl. by rewrite kills_snoc.
      * split; [split; [done|]|done]. wsimpl. intros Hin. apply Hq. by right.
    + destruct Hq. by left.
Qed.

Lemma quiet_run evs w K :
  forallb (λ ev, negb (is_shutdown ev)) evs = true →
  quiet w ∧ kills (log w) = K →
  quiet (run evs w) ∧ kills (log (run evs w)) = K.
Proof.
  revert w. induction evs as [|ev evs IH]; intros w Hevs HQ; simpl in *; [done|].
  apply andb_prop in Hevs as [Hev Hevs]. apply IH; [done|].
  apply quiet_step; [|done]. by destruct (is_shutdown ev).
Qed.

(** C5: a call is outstanding when the shutdown function is called, and the
    worker then answers the call with a failure.  The call is rejected with
    the reported error and leaves the registry, nothing is queued or
    parked any more, [Promise.all] has rejected, and no [SIGINT] has been
    sent; none is sent later either, unless the shutdown function is called
    again. *)
Theorem shutdown_skips_kill_after_rejection (evs : list Event) :
  let w := drain (run demo_failed_call_during_shutdown demo_world) in
  cells w = [{| inner := Some (Rejected (VJson "boom")); finally_tx := demo_tx;
                outer := Some (Rejected (VJson "boom")) |}] ∧
  pendingPromises w = [] ∧ microtasks w = [] ∧ awaiting w = [] ∧
  log w = [ASend (Msg_load (VJson "demo-plugin") (VJson "/workspace"));
           ASend (Msg_createDependencies (VJson "ctx") demo_tx);
           APendingSet demo_tx 0;
           AOffExit;
           AAwaitAll [0];
           ASettle 0 (Rejected (VJson "boom"));
           APendingDelete demo_tx true;
           AUnhandledRejection (VJson "boom")] ∧
  kills (log w) = [] ∧
  (forallb (λ ev, negb (is_shutdown ev)) evs = true → kills (log (run evs w)) = []).
Proof.
  intros w.
  split; [reflexivity|]. split; [reflexivity|]. split; [reflexivity|].
  split; [reflexivity|]. split; [reflexivity|]. split; [reflexivity|].
  intros Hevs. apply (quiet_run evs w []); [done|].
  split; [split|]; [reflexivity| |reflexivity].
  replace (microtasks w) with (@nil Job) by reflexivity. apply not_elem_of_nil.
Qed.

Lemma shutdown_skips_kill_after_rejection_witness :
  forallb (λ ev, negb (is_shutdown ev))
    [EExit None; EMicrotask; EInvoke demo_call "14.75"] = true ∧
  kills (log (run [EExit None; EMicrotask; EInvoke demo_call "14.75"]
                (drain (run demo_failed_call_during_shutdown demo_world)))) = [].
Proof.
  split; [reflexivity|].
  apply (shutdown_skips_kill_after_rejection
           [EExit None; EMicrotask; EInvoke demo_call "14.75"]).
  reflexivity.
Defined.

(** The same call answered with a success: the shutdown resumes and the
    worker is sent [SIGINT] once. *)
Example shutdown_kills_after_fulfilment :
  kills (log (drain (run [EInvoke demo_call "12.5"; EShutdown;
                          EMessage (Res_createDependenciesResult demo_tx
                                      (OpOk (VJson "[a->b]")))] demo_world)))
  = ["SIGINT"].
Proof. reflexivity. Qed.

(** * Further properties of the pool *)

(** ** Where [worker.kill] is called from *)

Lemma kills_settle i o w : kills (log (settle i o w)) = kills (log w).
Proof.
  unfold settle. repeat case_match; try done. wsimpl. by rewrite kills_snoc.
Qed.

Lemma kills_await_all s w : kills (log (await_all s w)) = kills (log w).
Proof.
  unfold await_all. case_match; try done. wsimpl. by rewrite kills_snoc.
Qed.

Lemma kills_wake w : kills (log (wake w)) = kills (log w).
Proof.
  unfold wake.
  apply (foldl_invariant (λ w', kills (log w') = kills (log w))); [|done].
  intros w' s <-. apply kills_await_all.
Qed.

Lemma kills_cleanup w : kills (log (cleanupFunction w)) = kills (log w).
Proof.
  unfold cleanupFunction, shutdownPluginWorker. rewrite kills_await_all.
  wsimpl. by rewrite !kills_snoc.
Qed.

Lemma kills_exit_handler w :
  kills (log (createWorkerExitHandler w)) = kills (log w).
Proof.
  unfold createWorkerExitHandler.
  apply (foldl_invariant (λ w', kills (log w') = kills (log w))); [|done].
  intros w' kv <-. apply kills_settle.
Qed.

Lemma kills_step_sync ev w :
  is_microtask ev = false → kills (log (step ev w)) = kills (log w).
Proof.
  intros Hev. destruct ev as [c now|m|code| | |]; cbn [step]; [| | | |done|].
  - unfold host_invoke. repeat case_match; try done.
    unfold invoke, registerPendingPromise. cbn [snd]. wsimpl.
    by rewrite !kills_snoc.
  - unfold on_message, createWorkerHandler, on_result, onload, onloadError.
    repeat case_match; simplify_eq; try done; try apply kills_settle.
    all: wsimpl; by rewrite kills_snoc.
  - unfold on_exit. case_match; [|done]. by rewrite kills_exit_handler.
  - unfold shutdown. wsimpl. apply kills_cleanup.
  - destruct (process_exit_cases w) as [-> | [-> | [-> | -> ]]];
      by rewrite ?kills_cleanup.
Qed.

Lemma kills_step_microtask w :
  kills (log (step_microtask w))
  = kills (log w) ++ match microtasks w with JResume :: _ => ["SIGINT"] | _ => [] end.
Proof.
  unfold step_microtask. destruct (microtasks w) as [|[i|] q].
  - by rewrite app_nil_r.
  - rewrite app_nil_r. unfold run_job.
    replace (cells (with_microtasks (λ _, q) w)) with (cells w) by done.
    destruct (cells w !! i); [|done].
    rewrite kills_wake. wsimpl. by rewrite kills_snoc.
  - unfold run_job. wsimpl. by rewrite kills_app.
Qed.

(** X1: [worker.kill] is never called in the synchronous part of anything:
    not by an operation, a message, the exit of the worker, the shutdown
    function or the exit of the host.  One job sends at most one signal,
    only the resumption of [shutdownPluginWorker] after its [await] does,
    and the signal is [SIGINT]. *)
Theorem kill_only_from_resumed_shutdown (w : World) :
  (∀ ev, is_microtask ev = false → kills (log (step ev w)) = kills (log w)) ∧
  kills (log (step EMicrotask w))
  = kills (log w) ++ match microtasks w with JResume :: _ => ["SIGINT"] | _ => [] end.
Proof.
  split; [intros ev; apply kills_step_sync|apply kills_step_microtask].
Qed.

Lemma kill_only_from_resumed_shutdown_witness :
  is_microtask EProcessExit = false ∧
  kills (log (step EProcessExit demo_world)) = kills (log demo_world).
Proof.
  split; [reflexivity|].
  apply (proj1 (kill_only_from_resumed_shutdown demo_world) EProcessExit).
  reflexivity.
Defined.

(** ** Every call of [shutdownPluginWorker] is accounted for *)

Lemma resumes_snoc q j :
  resumes (q ++ [j]) = resumes q + (if decide (j = JResume) then 1 else 0).
Proof.
  unfold resumes. rewrite filter_app, length_app. f_equal.
  case_decide.
  - by rewrite filter_cons_True.
  - by rewrite filter_cons_False.
Qed.

Lemma accounted_emit a w :
  accounted (emit a w)
  = accounted w + (match a with AKill _ => 1 | _ => 0 end)
    + (if is_unhandled a then 1 else 0).
Proof.
  unfold accounted. wsimpl. rewrite kills_app, length_app, count_snoc.
  destruct a; simpl; lia.
Qed.

Lemma accounted_await_all s w :
  accounted (await_all s w) = S (accounted w) ∧
  count is_await (log (await_all s w)) = count is_await (log w).
Proof.
  unfold await_all. case_match.
  - unfold accounted. wsimpl. rewrite length_app. simpl. split; [lia|done].
  - unfold accounted. wsimpl. rewrite resumes_snoc. simpl. split; [lia|done].
  - rewrite accounted_emit. wsimpl. rewrite count_snoc. simpl. split; lia.
Qed.

Lemma accounted_wake w :
  accounted (wake w) = accounted w ∧
  count is_await (log (wake w)) = count is_await (log w).
Proof.
  unfold wake.
  assert (H : ∀ l w0,
    accounted (foldl (λ w' s, await_all s w') w0 l) = accounted w0 + length l ∧
    count is_await (log (foldl (λ w' s, await_all s w') w0 l))
    = count is_await (log w0)).
  { induction l as [|s l IH]; intros w0; simpl; [split; [lia|done]|].
    destruct (IH (await_all s w0)) as [-> ->].
    destruct (accounted_await_all s w0) as [-> ->]. split; [lia|done]. }
  destruct (H (awaiting w) (with_awaiting (λ _, []) w)) as [-> ->].
  split; [|done]. unfold accounted. wsimpl. simpl. lia.
Qed.

Lemma accounted_settle i o w :
  accounted (settle i o w) = accounted w ∧
  count is_await (log (settle i o w)) = count is_await (log w).
Proof.
  unfold settle. repeat case_match; try done.
  rewrite accounted_emit. unfold accounted. wsimpl.
  rewrite resumes_snoc, count_snoc. simpl. split; lia.
Qed.

Lemma accounted_exit_handler w :
  accounted (createWorkerExitHandler w) = accounted w ∧
  count is_await (log (createWorkerExitHandler w)) = count is_await (log w).
Proof.
  unfold createWorkerExitHandler.
  apply (foldl_invariant
           (λ w', accounted w' = accounted w ∧
                  count is_await (log w') = count is_await (log w))); [|done].
  intros w' kv [<- <-]. apply accounted_settle.
Qed.

Lemma accounted_cleanup w :
  accounted (cleanupFunction w) = S (accounted w) ∧
  count is_await (log (cleanupFunction w)) = S (count is_await (log w)).
Proof.
  unfold cleanupFunction, shutdownPluginWorker.
  match goal with |- context [await_all ?s ?w0] =>
    destruct (accounted_await_all s w0) as [-> ->] end.
  rewrite accounted_emit. simpl. unfold accounted. wsimpl.
  rewrite kills_snoc by done. rewrite !count_snoc. simpl. split; lia.
Qed.

Lemma accounted_step ev w :
  count is_await (log w) = accounted w →
  count is_await (log (step ev w)) = accounted (step ev w).
Proof.
  intros Hb. destruct ev as [c now|m|code| | |]; cbn [step].
  - unfold host_invoke. repeat case_match; try done.
    unfold invoke, registerPendingPromise. cbn [snd].
    unfold accounted in *. wsimpl. rewrite !kills_snoc by done.
    rewrite !count_snoc. simpl. lia.
  - unfold on_message, createWorkerHandler, on_result, onload, onloadError.
    repeat case_match; simplify_eq; try done.
    all: try (match goal with |- context [settle ?i ?o ?w0] =>
                destruct (accounted_settle i o w0) as [-> ->] end; done).
    all: rewrite accounted_emit; wsimpl; rewrite count_snoc; simpl; lia.
  - unfold on_exit. case_match; [|done].
    by destruct (accounted_exit_handler (with_exitCode code w)) as [-> ->].
  - unfold shutdown.
    replace (accounted (with_cleanupFunctions _ (cleanupFunction w)))
      with (accounted (cleanupFunction w)) by done.
    wsimpl. destruct (accounted_cleanup w) as [-> ->]. by rewrite Hb.
  - unfold step_microtask. destruct (microtasks w) as [|[i|] q] eqn:Hm; [done| |].
    + unfold run_job.
      replace (cells (with_microtasks (λ _, q) w)) with (cells w) by done.
      destruct (cells w !! i).
      * match goal with |- context [wake ?w0] =>
          destruct (accounted_wake w0) as [-> ->] end.
        unfold accounted in *. wsimpl. rewrite Hm in Hb. unfold resumes in *.
        rewrite filter_cons_False in Hb by done.
        rewrite kills_snoc by done. rewrite !count_snoc. simpl. lia.
      * unfold accounted in *. wsimpl. rewrite Hm in Hb. unfold resumes in *.
        by rewrite filter_cons_False in Hb.
    + unfold run_job, worker_kill. rewrite accounted_emit. simpl.
      unfold accounted in *. wsimpl. rewrite Hm in Hb. unfold resumes in *.
      rewrite filter_cons_True in Hb by done. rewrite count_snoc. simpl in *. lia.
  - destruct (process_exit_cases w) as [-> | [-> | [-> | -> ]]]; try done.
    + destruct (accounted_cleanup w) as [-> ->]. by rewrite Hb.
    + destruct (accounted_cleanup (with_nxPluginCache ∅ w)) as [-> ->].
      f_equal. exact Hb.
Qed.

Lemma accounted_run evs w :
  count is_await (log w) = accounted w →
  count is_await (log (run evs w)) = accounted (run evs w).
Proof.
  revert w. induction evs as [|ev evs IH]; intros w Hb; simpl; [done|].
  by apply IH, accounted_step.
Qed.

(** X2: every call of [shutdownPluginWorker] (one per [await Promise.all]
    in the log) is in exactly one place: parked at the [await], queued to
    resume, past its [worker.kill], or ended by a rejected [await].  So the
    worker is never sent more signals than the cleanup function was
    called. *)
Theorem shutdown_calls_accounted (cf : gset N) (names : gmap N string)
    (cache : gmap string N) (plugin root : Value) (child : N) (evs : list Event) :
  let w := run evs (loadRemoteNxPlugin cf names cache plugin root child) in
  count is_await (log w)
  = length (awaiting w) + resumes (microtasks w) + length (kills (log w))
    + count is_unhandled (log w) ∧
  length (kills (log w)) ≤ count is_await (log w).
Proof.
  intros w.
  assert (H : count is_await (log w) = accounted w).
  { unfold w. apply accounted_run. reflexivity. }
  split; [exact H|]. rewrite H. unfold accounted. lia.
Qed.

(** ** What the worker is sent *)

Lemma sent_snoc l a :
  sent (l ++ [a]) = sent l ++ match a with ASend m => [m] | _ => [] end.
Proof. unfold sent. rewrite omap_app. by destruct a. Qed.

Lemma sent_snoc_other l a :
  (∀ m, a ≠ ASend m) → sent (l ++ [a]) = sent l.
Proof.
  intros Ha. rewrite sent_snoc. destruct a; try by rewrite app_nil_r.
  by destruct (Ha m).
Qed.

Lemma sent_settle i o w : sent (log (settle i o w)) = sent (log w).
Proof.
  unfold settle. repeat case_match; try done. wsimpl. by rewrite sent_snoc_other.
Qed.

Lemma sent_await_all s w : sent (log (await_all s w)) = sent (log w).
Proof.
  unfold await_all. case_match; try done. wsimpl. by rewrite sent_snoc_other.
Qed.

Lemma sent_wake w : sent (log (wake w)) = sent (log w).
Proof.
  unfold wake.
  apply (foldl_invariant (λ w', sent (log w') = sent (log w))); [|done].
  intros w' s <-. apply sent_await_all.
Qed.

Lemma sent_cleanup w : sent (log (cleanupFunction w)) = sent (log w).
Proof.
  unfold cleanupFunction, shutdownPluginWorker. rewrite sent_await_all.
  wsimpl. by rewrite !sent_snoc_other.
Qed.

Lemma sent_exit_handler w :
  sent (log (createWorkerExitHandler w)) = sent (log w).
Proof.
  unfold createWorkerExitHandler.
  apply (foldl_invariant (λ w', sent (log w') = sent (log w))); [|done].
  intros w' kv <-. apply sent_settle.
Qed.

Lemma txs_step_microtask w :
  finally_tx <$> cells (step_microtask w) = finally_tx <$> cells w.
Proof.
  unfold step_microtask. destruct (microtasks w) as [|[i|] q]; [done| |done].
  unfold run_job.
  replace (cells (with_microtasks (λ _, q) w)) with (cells w) by done.
  destruct (cells w !! i) as [c|] eqn:Hc; [|done].
  rewrite cells_wake. wsimpl. rewrite list_fmap_insert. simpl.
  apply list_insert_id. by rewrite list_lookup_fmap, Hc.
Qed.

Lemma sent_step_microtask w : sent (log (step_microtask w)) = sent (log w).
Proof.
  unfold step_microtask. destruct (microtasks w) as [|[i|] q]; [done| |].
  - unfold run_job.
    replace (cells (with_microtasks (λ _, q) w)) with (cells w) by done.
    destruct (cells w !! i); [|done].
    rewrite sent_wake. wsimpl. by rewrite sent_snoc_other.
  - unfold run_job. wsimpl. by rewrite sent_snoc_other.
Qed.

(** A step either sends nothing and creates no transaction, or it is a call
    of an operation, which sends one request and creates the transaction
    with the identifier the request carries. *)
Lemma sent_step ev w :
  (sent (log (step ev w)) = sent (log w) ∧
   finally_tx <$> cells (step ev w) = finally_tx <$> cells w) ∨
  (∃ c now, ev = EInvoke c now ∧
     sent (log (step ev w))
     = sent (log w) ++ [request_of c (mk_tx (pluginName w) (op_of c) now)] ∧
     finally_tx <$> cells (step ev w)
     = (finally_tx <$> cells w) ++ [mk_tx (pluginName w) (op_of c) now]).
Proof.
  destruct ev as [c now|m|code| | |]; cbn [step].
  - unfold host_invoke. repeat case_match; try (by left).
    right. exists c, now. split; [done|].
    unfold invoke, registerPendingPromise. cbn [snd]. wsimpl.
    rewrite sent_snoc_other by done. rewrite sent_snoc, fmap_app. done.
  - left. unfold on_message, createWorkerHandler, on_result, onload, onloadError.
    repeat case_match; simplify_eq; try done.
    all: try (rewrite sent_settle; split; [done|];
              apply inner_only_txs, inner_only_settle).
    all: wsimpl; by rewrite sent_snoc_other.
  - left. unfold on_exit. case_match; [|done].
    rewrite sent_exit_handler. split; [done|].
    apply (inner_only_txs (cells (with_exitCode code w))), inner_only_exit_handler.
  - left. unfold shutdown. wsimpl. by rewrite sent_cleanup, cells_cleanup.
  - left. by rewrite sent_step_microtask, txs_step_microtask.
  - left. rewrite cells_process_exit.
    destruct (process_exit_cases w) as [-> | [-> | [-> | -> ]]];
      by rewrite ?sent_cleanup.
Qed.

Lemma tx_of_request c tx : tx_of_message (request_of c tx) = Some tx.
Proof. by destruct c. Qed.

Lemma requests_run (first : PluginWorkerMessage) evs w :
  (∃ requests, sent (log w) = first :: requests ∧
     tx_of_message <$> requests = Some <$> (finally_tx <$> cells w)) →
  ∃ requests, sent (log (run evs w)) = first :: requests ∧
    tx_of_message <$> requests = Some <$> (finally_tx <$> cells (run evs w)).
Proof.
  revert w. induction evs as [|ev evs IH]; intros w Hw; simpl; [done|].
  apply IH. destruct Hw as (requests & Hsent & Htxs).
  destruct (sent_step ev w) as [[-> ->]|(c & now & _ & -> & ->)].
  - by exists requests.
  - exists (requests ++ [request_of c (mk_tx (pluginName w) (op_of c) now)]).
    split; [by rewrite Hsent|].
    rewrite !fmap_app, Htxs. simpl. by rewrite tx_of_request.
Qed.

(** X3: the worker is sent the [load] request first and then, for every
    transaction ever created and in the order of creation, exactly one
    request, which carries the identifier of that transaction; nothing else
    is ever sent (no message is sent on a result, an exit or a shutdown,
    and no request is sent twice). *)
Theorem one_request_per_transaction (cf : gset N) (names : gmap N string)
    (cache : gmap string N) (plugin root : Value) (child : N) (evs : list Event) :
  let w := run evs (loadRemoteNxPlugin cf names cache plugin root child) in
  ∃ requests,
    sent (log w) = Msg_load plugin root :: requests ∧
    tx_of_message <$> requests = Some <$> (finally_tx <$> cells w).
Proof.
  intros w. apply requests_run. by exists [].
Qed.

(** ** What a result message changes *)

Lemma handler_on_result tx r m w :
  m ∈ results_for tx r → createWorkerHandler m w = on_result tx r w.
Proof.
  unfold results_for. intros Hm. set_unfold in Hm.
  by destruct Hm as [-> | [-> | [-> | []]]].
Qed.

(** X4: a result message whose identifier is in the registry settles the
    transaction the entry refers to, if that is still pending, with the
    outcome the message reports; a second result for a transaction that is
    already settled changes nothing (the first one wins).  Either way the
    message leaves every other transaction and the registry as they are:
    the entry is removed later, by the [finally] reaction. *)
Theorem result_settles_only_its_transaction (cf : gset N) (names : gmap N string)
    (cache : gmap string N) (plugin root : Value) (child : N) (evs : list Event)
    (tx : string) (r : OpResult) (m : PluginWorkerResult) (pp : PendingPromise) :
  let w := run evs (loadRemoteNxPlugin cf names cache plugin root child) in
  m ∈ results_for tx r →
  JsMap.get tx (pendingPromises w) = Some pp →
  pendingPromises (step (EMessage m) w) = pendingPromises w ∧
  (∀ j c, j ≠ promise pp → cells w !! j = Some c →
     cells (step (EMessage m) w) !! j = Some c) ∧
  ∃ c, cells w !! promise pp = Some c ∧
    cells (step (EMessage m) w) !! promise pp
    = Some (if inner c is Some _ then c else set_inner (outcome_of r) c).
Proof.
  intros w Hm Hget.
  assert (Hwf : wf w) by apply wf_run, wf_init.
  destruct (wf_entries _ Hwf tx pp (JsMap_get_elem_of _ _ _ Hget))
    as (Hpr & Hrj & Hlt).
  destruct (lookup_lt_is_Some_2 _ _ Hlt) as [c Hc].
  assert (Hstep : step (EMessage m) w = settle (resolver pp) (outcome_of r) w).
  { cbn [step]. unfold on_message. rewrite (handler_on_result tx r) by done.
    unfold on_result. rewrite Hget. destruct r; simpl; by rewrite ?Hrj. }
  rewrite Hstep, Hpr. split; [apply pending_settle|]. split.
  - intros j cj Hne Hcj. unfold settle. rewrite Hc.
    destruct (inner c); [done|]. wsimpl. by rewrite list_lookup_insert_ne.
  - exists c. split; [done|]. unfold settle. rewrite Hc.
    destruct (inner c) eqn:Hin; [done|]. wsimpl.
    apply list_lookup_insert_eq. by eapply lookup_lt_Some.
Qed.

Lemma result_settles_only_its_transaction_witness :
  Res_createDependenciesResult "demo:createDependencies:13.25" (OpFail (VJson "boom"))
  ∈ results_for "demo:createDependencies:13.25" (OpFail (VJson "boom")) ∧
  JsMap.get "demo:createDependencies:13.25"
    (pendingPromises (run demo_trace demo_forked))
  = Some {| promise := 1; resolver := 1; rejector := 1 |} ∧
  pendingPromises
    (step (EMessage (Res_createDependenciesResult "demo:createDependencies:13.25"
                       (OpFail (VJson "boom"))))
       (run demo_trace demo_forked))
  = pendingPromises (run demo_trace demo_forked).
Proof.
  assert (H1 : Res_createDependenciesResult "demo:createDependencies:13.25"
                 (OpFail (VJson "boom"))
               ∈ results_for "demo:createDependencies:13.25" (OpFail (VJson "boom"))).
  { unfold results_for. left. }
  split; [exact H1|]. split; [reflexivity|].
  exact (proj1 (result_settles_only_its_transaction ∅ ∅ ∅ (VJson "demo-plugin")
                  (VJson "/workspace") 4242 demo_trace
                  "demo:createDependencies:13.25" (OpFail (VJson "boom")) _
                  {| promise := 1; resolver := 1; rejector := 1 |} H1 eq_refl)).
Defined.

(** X5: as long as identifiers are not reused, a transaction that has run
    its [finally] reaction is no longer in the registry, so the handler of
    a result message that names it (a reply that comes twice, or after the
    exit handler rejected the call) throws where it destructures
    [pending.get(tx)]. *)
Theorem late_result_throws (cf : gset N) (names : gmap N string)
    (cache : gmap string N) (plugin root : Value) (child : N) (evs : list Event)
    (i : nat) (c : Cell) (r : OpResult) :
  let w := run evs (loadRemoteNxPlugin cf names cache plugin root child) in
  fresh_trace evs (loadRemoteNxPlugin cf names cache plugin root child) = true →
  cells w !! i = Some c → is_Some (outer c) →
  JsMap.get (finally_tx c) (pendingPromises w) = None ∧
  on_result (finally_tx c) r w = Throw TypeError_destructure w.
Proof.
  intros w Hfresh Hc Hout.
  destruct (inv_run evs _ (wf_init cf names cache plugin root child)
              (uniq_init cf names cache plugin root child) Hfresh) as [Hwf Hu].
  fold w in Hwf, Hu.
  assert (Hget : JsMap.get (finally_tx c) (pendingPromises w) = None).
  { destruct (JsMap.get (finally_tx c) (pendingPromises w)) as [pp|] eqn:Hget;
      [|done].
    destruct (uq_keys _ Hu (finally_tx c)) as (j & cj & Hcj & Htx & Hnone).
    { rewrite Hget. by eexists. }
    assert (j = i) as -> by (eapply txs_lookup_inj; [apply Hu|done..]).
    simplify_eq. destruct Hout as [? Hout]. congruence. }
  split; [done|].
  unfold on_result. by rewrite Hget.
Qed.

Lemma late_result_throws_witness :
  fresh_trace demo_trace demo_forked = true ∧
  cells (run demo_trace demo_forked) !! 0
  = Some {| inner := Some (Fulfilled (VJson "[a->b]")); finally_tx := demo_tx;
            outer := Some (Fulfilled (VJson "[a->b]")) |} ∧
  on_result demo_tx (OpOk (VJson "[a->b]")) (run demo_trace demo_forked)
  = Throw TypeError_destructure (run demo_trace demo_forked).
Proof.
  split; [reflexivity|]. split; [reflexivity|].
  refine (proj2 (late_result_throws ∅ ∅ ∅ (VJson "demo-plugin") (VJson "/workspace")
                   4242 demo_trace 0 _ (OpOk (VJson "[a->b]"))
                   eq_refl eq_refl _)).
  by eexists.
Defined.

(** ** The name of the plugin *)

Lemma named_frame w w' :
  named w → pluginName w' = pluginName w → pluginNames w' = pluginNames w →
  pid w' = pid w → loaded w' = loaded w →
  finally_tx <$> cells w' = finally_tx <$> cells w → named w'.
Proof.
  intros [Hm Hl Hc] Hn Hns Hp Hld Htxs. split; rewrite ?Hn, ?Hns, ?Hp, ?Hld.
  - done.
  - done.
  - intros Hne. apply Hc. intros Hnil. apply Hne.
    rewrite Hnil in Htxs. by apply fmap_nil_inv in Htxs.
Qed.

Lemma named_same_host w w' :
  named w → same_host w w' →
  finally_tx <$> cells w' = finally_tx <$> cells w → named w'.
Proof.
  intros Hn (_ & Hns & _ & Hp & _ & _ & Hpn & Hl) Htxs.
  by apply (named_frame w).
Qed.

Lemma named_on_result tx r w :
  named w →
  named match on_result tx r w with
        | Normal w' => w'
        | Throw e w' => emit (ADispatchRejected e) w'
        end.
Proof.
  intros Hn. unfold on_result.
  destruct (JsMap.get tx (pendingPromises w)) as [pp|].
  - destruct r; (eapply named_same_host;
      [done|apply same_host_settle|apply inner_only_txs, inner_only_settle]).
  - by eapply named_same_host; [done|apply same_host_emit|].
Qed.

Lemma named_step ev w : named w → named (step ev w).
Proof.
  intros Hn. destruct ev as [c now|m|code| | |]; cbn [step].
  - unfold host_invoke. destruct (loaded w) as [[h|]|] eqn:Hl; try done.
    destruct (operation h (op_of c)); [|done].
    destruct Hn as [Hm Hl' Hc]. split; try done.
    intros _. exists h. by rewrite (same_host_loaded _ _ (same_host_invoke c now w)).
  - unfold on_message, createWorkerHandler, on_result.
    destruct m as [[r|e]|tx r|tx r|tx r].
    + destruct Hn as [Hm Hl Hc]. unfold onload. wsimpl.
      destruct (loaded w) as [o|] eqn:Hld; split; wsimpl.
      * intros n [= <-]. apply lookup_insert_eq.
      * intros h _. by eexists.
      * rewrite Hld. done.
      * intros n [= <-]. apply lookup_insert_eq.
      * intros h _. by eexists.
      * intros _. by eexists.
    + unfold onloadError.
      destruct (loaded w) as [o|] eqn:Hld; [exact Hn|].
      destruct Hn as [Hm Hl Hc]. split; wsimpl.
      * done.
      * done.
      * intros Hne. destruct (Hc Hne) as [h Hh]. congruence.
    + by apply named_on_result.
    + by apply named_on_result.
    + by apply named_on_result.
  - assert (Hn0 : named (with_exitCode code w)) by (by apply (named_frame w)).
    unfold on_exit. case_match; [|done].
    eapply named_same_host; [done|apply same_host_exit_handler|].
    apply inner_only_txs, inner_only_exit_handler.
  - unfold shutdown.
    destruct (same_host_cleanup w) as (_ & Hns & _ & Hp & _ & _ & Hpn & Hl).
    apply (named_frame w); [done|done..|]. wsimpl. by rewrite cells_cleanup.
  - eapply named_same_host; [done|apply same_host_step_microtask|].
    apply txs_step_microtask.
  - destruct (process_exit_cases w) as [-> | [-> | [-> | -> ]]].
    + done.
    + by apply (named_frame w).
    + destruct (same_host_cleanup w) as (_ & Hns & _ & Hp & _ & _ & Hpn & Hl).
      apply (named_frame w); [done|done..|]. by rewrite cells_cleanup.
    + destruct (same_host_cleanup (with_nxPluginCache ∅ w))
        as (_ & Hns & _ & Hp & _ & _ & Hpn & Hl).
      apply (named_frame w); [done|done..|]. by rewrite cells_cleanup.
Qed.

Lemma named_run evs w : named w → named (run evs w).
Proof.
  revert w. induction evs as [|ev evs IH]; intros w Hn; simpl; [done|].
  by apply IH, named_step.
Qed.

Lemma named_init cf names cache plugin root child :
  named (loadRemoteNxPlugin cf names cache plugin root child).
Proof. split; simpl; done. Qed.

(** X6: whenever the worker has a transaction, a successful [load-result]
    has been handled: the name the identifiers are made with is set, it is
    the name [pluginNames] holds for the worker, and the error of the exit
    handler names the plugin.  The process identifier is used in that error
    only when there is nothing to reject. *)
Theorem exit_error_names_plugin (cf : gset N) (names : gmap N string)
    (cache : gmap string N) (plugin root : Value) (child : N) (evs : list Event)
    (code : option Z) :
  let w := run evs (loadRemoteNxPlugin cf names cache plugin root child) in
  cells w ≠ [] →
  ∃ n, pluginName w = Some n ∧ pluginNames w !! pid w = Some n ∧
       exit_error w code
       = VError ("Plugin worker " +:+ n +:+ " exited unexpectedly with code "
                   +:+ match code with Some k => pretty k | None => "null" end).
Proof.
  intros w Hne.
  pose proof (named_run evs _ (named_init cf names cache plugin root child)) as Hn.
  fold w in Hn.
  destruct (nm_cells _ Hn Hne) as [h Hh].
  destruct (nm_loaded _ Hn h Hh) as [n Hpn].
  pose proof (nm_map _ Hn n Hpn) as Hmap.
  exists n. split; [done|]. split; [done|].
  unfold exit_error. by rewrite Hmap.
Qed.

Lemma exit_error_names_plugin_witness :
  cells (run demo_trace demo_forked) ≠ [] ∧
  ∃ n, pluginName (run demo_trace demo_forked) = Some n ∧
       pluginNames (run demo_trace demo_forked) !! pid (run demo_trace demo_forked)
       = Some n ∧
       exit_error (run demo_trace demo_forked) (Some 1%Z)
       = VError ("Plugin worker " +:+ n +:+ " exited unexpectedly with code "
                   +:+ pretty 1%Z).
Proof.
  assert (H : cells (run demo_trace demo_forked) ≠ []) by (vm_compute; discriminate).
  split; [exact H|].
  exact (exit_error_names_plugin ∅ ∅ ∅ (VJson "demo-plugin") (VJson "/workspace") 4242
           demo_trace (Some 1%Z) H).
Defined.

(** ** The cleanup-function set and the exit of the host *)

Lemma same_host_pid w w' : same_host w w' → pid w' = pid w.
Proof. by intros (_&_&_&?&_). Qed.

Lemma same_host_cleanupFunctions w w' :
  same_host w w' → cleanupFunctions w' = cleanupFunctions w.
Proof. by intros (?&_). Qed.

Lemma same_host_on_result tx r w :
  same_host w match on_result tx r w with
              | Normal w' => w'
              | Throw e w' => emit (ADispatchRejected e) w'
              end.
Proof.
  unfold on_result. destruct (JsMap.get tx (pendingPromises w)) as [pp|].
  - destruct r; apply same_host_settle.
  - apply same_host_emit.
Qed.

Lemma cleanup_set_step ev w :
  pid (step ev w) = pid w ∧
  cleanupFunctions (step ev w)
  = if is_explicit_shutdown ev then cleanupFunctions w ∖ {[pid w]}
    else cleanupFunctions w.
Proof.
  destruct ev as [c now|m|code| | |]; cbn [step is_explicit_shutdown].
  - unfold host_invoke. by repeat case_match.
  - unfold on_message, createWorkerHandler.
    destruct m as [[r|e]|tx r|tx r|tx r].
    + unfold onload. by case_match.
    + unfold onloadError. by case_match.
    + pose proof (same_host_on_result tx r w) as Hh.
      by rewrite (same_host_pid _ _ Hh), (same_host_cleanupFunctions _ _ Hh).
    + pose proof (same_host_on_result tx r w) as Hh.
      by rewrite (same_host_pid _ _ Hh), (same_host_cleanupFunctions _ _ Hh).
    + pose proof (same_host_on_result tx r w) as Hh.
      by rewrite (same_host_pid _ _ Hh), (same_host_cleanupFunctions _ _ Hh).
  - unfold on_exit. case_match; [|done].
    pose proof (same_host_exit_handler (with_exitCode code w)) as Hh.
    by rewrite (same_host_pid _ _ Hh), (same_host_cleanupFunctions _ _ Hh).
  - rewrite pid_shutdown, cleanup_shutdown. done.
  - pose proof (same_host_step_microtask w) as Hh.
    by rewrite (same_host_pid _ _ Hh), (same_host_cleanupFunctions _ _ Hh).
  - destruct (process_exit_cases w) as [-> | [-> | [-> | -> ]]]; try done.
    + pose proof (same_host_cleanup w) as Hh.
      by rewrite (same_host_pid _ _ Hh), (same_host_cleanupFunctions _ _ Hh).
    + pose proof (same_host_cleanup (with_nxPluginCache ∅ w)) as Hh.
      by rewrite (same_host_pid _ _ Hh), (same_host_cleanupFunctions _ _ Hh).
Qed.

Lemma cleanup_set_run evs w :
  pid (run evs w) = pid w ∧
  cleanupFunctions (run evs w)
  = if existsb is_explicit_shutdown evs then cleanupFunctions w ∖ {[pid w]}
    else cleanupFunctions w.
Proof.
  revert w. induction evs as [|ev evs IH]; intros w; simpl; [done|].
  destruct (IH (step ev w)) as [-> ->].
  destruct (cleanup_set_step ev w) as [-> ->]. split; [done|].
  destruct (is_explicit_shutdown ev), (existsb is_explicit_shutdown evs); simpl;
    try done.
  set_solver.
Qed.

Lemma cleanup_log w :
  ∃ rest, log (cleanupFunction w)
          = log w ++ [AOffExit; AAwaitAll (promise <$> JsMap.values (pendingPromises w))]
              ++ rest.
Proof. apply (shutdown_log w). Qed.

(** X7: [loadRemoteNxPlugin] adds a new closure to the cleanup set: the
    set had no cleanup function under the name of this worker before
    ([child ∉ cf]).  Then the cleanup function of the worker is in the set
    from [loadRemoteNxPlugin] until the shutdown function is called, which
    leaves the set as it was before the worker was loaded, and no other
    event changes the set.  When the host process exits after an explicit
    shutdown, the cleanup of this worker is not run again: at most the
    plugin cache is cleared.  When it exits without one, the cleanup runs:
    the exit handler is taken off and the pending futures are awaited, and
    the function stays in the set. *)
Theorem cleanup_set_and_host_exit (cf : gset N) (names : gmap N string)
    (cache : gmap string N) (plugin root : Value) (child : N) (evs : list Event) :
  let w := run evs (loadRemoteNxPlugin cf names cache plugin root child) in
  child ∉ cf →
  cleanupFunctions w
  = (if existsb is_explicit_shutdown evs then cf else {[child]} ∪ cf) ∧
  (existsb is_explicit_shutdown evs = true →
     step EProcessExit w = w ∨ step EProcessExit w = with_nxPluginCache ∅ w) ∧
  (existsb is_explicit_shutdown evs = false →
     exitListener (step EProcessExit w) = false ∧
     cleanupFunctions (step EProcessExit w) = cleanupFunctions w ∧
     ∃ rest, log (step EProcessExit w)
             = log w ++ [AOffExit;
                         AAwaitAll (promise <$> JsMap.values (pendingPromises w))]
                 ++ rest).
Proof.
  intros w Hnew.
  destruct (cleanup_set_run evs (loadRemoteNxPlugin cf names cache plugin root child))
    as [Hpid Hcf].
  fold w in Hpid, Hcf. simpl in Hpid, Hcf.
  split; [|split].
  - rewrite Hcf. case_match; [set_solver|done].
  - intros Hs. rewrite Hs in Hcf. cbn [step]. unfold on_process_exit.
    rewrite (decide_False (P := pid w ∈ cleanupFunctions w)).
    + case_decide; auto.
    + rewrite Hcf, Hpid. set_solver.
  - intros Hs. rewrite Hs in Hcf.
    destruct (cleanup_set_step EProcessExit w) as [_ Hcf'].
    split; [|split; [exact Hcf'|]].
    + cbn [step]. unfold on_process_exit.
      rewrite (decide_True (P := pid w ∈ cleanupFunctions w))
        by (rewrite Hcf, Hpid; set_solver).
      apply exitListener_cleanup.
    + cbn [step]. unfold on_process_exit.
      rewrite (decide_True (P := pid w ∈ cleanupFunctions w))
        by (rewrite Hcf, Hpid; set_solver).
      case_decide; [apply cleanup_log|].
      apply (cleanup_log (with_nxPluginCache ∅ w)).
Qed.

Lemma cleanup_set_and_host_exit_witness :
  (4242%N ∉ (∅ : gset N)) ∧
  existsb is_explicit_shutdown [EInvoke demo_call "12.5"; EShutdown] = true ∧
  cleanupFunctions (run [EInvoke demo_call "12.5"; EShutdown] demo_forked) = ∅ ∧
  (step EProcessExit (run [EInvoke demo_call "12.5"; EShutdown] demo_forked)
   = run [EInvoke demo_call "12.5"; EShutdown] demo_forked ∨
   step EProcessExit (run [EInvoke demo_call "12.5"; EShutdown] demo_forked)
   = with_nxPluginCache ∅ (run [EInvoke demo_call "12.5"; EShutdown] demo_forked)).
Proof.
  assert (Hnew : 4242%N ∉ (∅ : gset N)) by apply not_elem_of_empty.
  split; [exact Hnew|]. split; [reflexivity|].
  destruct (cleanup_set_and_host_exit ∅ ∅ ∅ (VJson "demo-plugin")
              (VJson "/workspace") 4242
              [EInvoke demo_call "12.5"; EShutdown] Hnew) as (Hset & Hafter & _).
  split; [exact Hset|]. apply Hafter. reflexivity.
Defined.

(** ** Calls made after the shutdown function *)

Lemma host_invoke_exposed c now w h :
  loaded w = Some (LoadFulfilled h) → is_Some (operation h (op_of c)) →
  host_invoke c now w = (invoke c now w).2.
Proof. intros Hl [o Ho]. unfold host_invoke. by rewrite Hl, Ho. Qed.

(** X8: the shutdown function waits only for the calls that are pending
    when it is called.  With an empty registry and an empty job queue, an
    operation called after the shutdown function and before its resumption
    still sends its request and registers its transaction, the resumption
    then sends [SIGINT] while that transaction is pending, and since the
    exit handler is off the exit of the worker leaves it pending. *)
Theorem call_after_shutdown_not_awaited (w : World) (h : RemotePlugin)
    (c : Invocation) (now : string) (code : option Z) :
  loaded w = Some (LoadFulfilled h) → is_Some (operation h (op_of c)) →
  pendingPromises w = [] → microtasks w = [] →
  let tx := mk_tx (pluginName w) (op_of c) now in
  let w' := run [EShutdown; EInvoke c now; EMicrotask] w in
  kills (log w') = kills (log w) ++ ["SIGINT"] ∧
  sent (log w') = sent (log w) ++ [request_of c tx] ∧
  cells w' = cells w ++ [{| inner := None; finally_tx := tx; outer := None |}] ∧
  JsMap.get tx (pendingPromises w')
  = Some {| promise := length (cells w); resolver := length (cells w);
            rejector := length (cells w) |} ∧
  microtasks w' = [] ∧
  cells (step (EExit code) w') = cells w'.
Proof.
  intros Hl Hop Hp Hq tx w'.
  assert (Hw' : w' = step_microtask (invoke c now (shutdown w)).2).
  { unfold w'. cbn [run foldl step]. f_equal.
    apply (host_invoke_exposed c now (shutdown w) h); [|done].
    rewrite <- Hl. unfold shutdown. wsimpl. apply loaded_cleanup. }
  rewrite Hw'. clear Hw' w'.
  rewrite (shutdown_empty_registry w Hp).
  unfold invoke, registerPendingPromise. cbn [snd].
  unfold step_microtask. wsimpl. rewrite Hq.
  cbn [app run_job]. wsimpl.
  split; [|split; [|split; [|split; [|split]]]].
  - rewrite kills_app. cbn [kills omap]. rewrite !kills_snoc by done. done.
  - rewrite !sent_snoc_other by done. rewrite sent_snoc.
    by rewrite !sent_snoc_other by done.
  - done.
  - apply JsMap_get_set_eq.
  - done.
  - cbn [step]. unfold on_exit. by wsimpl.
Qed.

Lemma call_after_shutdown_not_awaited_witness :
  loaded demo_world = Some (LoadFulfilled (remotePlugin demo_load)) ∧
  is_Some (operation (remotePlugin demo_load) (op_of demo_call)) ∧
  pendingPromises demo_world = [] ∧ microtasks demo_world = [] ∧
  kills (log (run [EShutdown; EInvoke demo_call "12.5"; EMicrotask] demo_world))
  = kills (log demo_world) ++ ["SIGINT"].
Proof.
  split; [reflexivity|]. split; [by eexists|]. split; [reflexivity|].
  split; [reflexivity|].
  apply (call_after_shutdown_not_awaited demo_world (remotePlugin demo_load)
           demo_call "12.5" None); [reflexivity|by eexists|reflexivity|reflexivity].
Defined.

(** ** The signal is sent after the snapshot is fulfilled *)

Lemma Promise_all_fulfilled cs s :
  Promise_all cs s = AllFulfilled → all_fulfilled cs s.
Proof.
  induction s as [|i s IH]; simpl; intros H j Hj.
  - by apply elem_of_nil in Hj.
  - destruct (cs !! i) as [c|] eqn:Hc; simpl in H.
    + destruct (outer c) as [[v|e]|] eqn:Ho; try done.
      * apply elem_of_cons in Hj as [->|Hj]; [by exists c, v|by apply IH].
      * by destruct (Promise_all cs s).
    + by destruct (Promise_all cs s).
Qed.

Lemma outer_stable_step ev w i c o :
  wf w → cells w !! i = Some c → outer c = Some o →
  ∃ c', cells (step ev w) !! i = Some c' ∧ outer c' = Some o.
Proof.
  intros Hwf Hc Ho. destruct ev as [c0 now|m|code| | |]; cbn [step].
  - unfold host_invoke. repeat case_match; try by eexists.
    simpl. exists c. split; [|done]. by apply lookup_app_l_Some.
  - assert (Hs : ∀ j o', ∃ c', cells (settle j o' w) !! i = Some c' ∧ outer c' = Some o).
    { intros j o'. destruct (settle_cell j o' w i c Hc) as (c' & Hc' & _ & Ho' & _).
      exists c'. split; [done|]. congruence. }
    unfold on_message, createWorkerHandler, on_result, onload, onloadError.
    repeat case_match; simplify_eq; try done; try (by exists c).
  - unfold on_exit. case_match; [|by exists c].
    destruct (exit_handler_cell (with_exitCode code w) i c Hc)
      as (c' & Hc' & _ & Ho' & _).
    exists c'. split; [done|]. congruence.
  - exists c. by rewrite cells_shutdown.
  - unfold step_microtask.
    destruct (microtasks w) as [|[j|] q]; [by exists c| |by exists c].
    unfold run_job.
    replace (cells (with_microtasks (λ _, q) w)) with (cells w) by done.
    destruct (cells w !! j) as [cj|] eqn:Hcj; [|by exists c].
    rewrite cells_wake. wsimpl.
    destruct (decide (i = j)) as [->|Hne].
    + rewrite Hcj in Hc. injection Hc as ->.
      exists (set_outer (inner c) c). split.
      * apply list_lookup_insert_eq. by eapply lookup_lt_Some.
      * simpl. by apply (wf_outer _ Hwf j).
    + exists c. by rewrite list_lookup_insert_ne.
  - exists c. by rewrite cells_process_exit.
Qed.

Lemma all_fulfilled_step ev w s :
  wf w → all_fulfilled (cells w) s → all_fulfilled (cells (step ev w)) s.
Proof.
  intros Hwf Hall i Hi. destruct (Hall i Hi) as (c & v & Hc & Ho).
  destruct (outer_stable_step ev w i c _ Hwf Hc Ho) as (c' & Hc' & Ho').
  by exists c', v.
Qed.

Lemma awaiting_settle i o w : awaiting (settle i o w) = awaiting w.
Proof. unfold settle. by repeat case_match. Qed.

Lemma resumes_settle i o w :
  resumes (microtasks (settle i o w)) = resumes (microtasks w).
Proof.
  unfold settle. repeat case_match; try done. wsimpl.
  rewrite resumes_snoc. rewrite decide_False by done. lia.
Qed.

(** Apart from jobs and from the cleanup function, nothing touches the
    parked functions, the queued resumptions or the signals. *)
Lemma shutdown_state_step ev w :
  is_shutdown ev = false → is_microtask ev = false →
  awaiting (step ev w) = awaiting w ∧
  resumes (microtasks (step ev w)) = resumes (microtasks w) ∧
  kills (log (step ev w)) = kills (log w).
Proof.
  intros Hs Hm. split; [|split; [|by apply kills_step_sync]].
  - destruct ev as [c now|m|code| | |]; try done; cbn [step].
    + unfold host_invoke. by repeat case_match.
    + unfold on_message, createWorkerHandler, on_result, onload, onloadError.
      repeat case_match; simplify_eq; try done; apply awaiting_settle.
    + unfold on_exit. case_match; [|done]. unfold createWorkerExitHandler.
      apply (foldl_invariant (λ w', awaiting w' = awaiting w)); [|done].
      intros w' kv <-. apply awaiting_settle.
  - destruct ev as [c now|m|code| | |]; try done; cbn [step].
    + unfold host_invoke. by repeat case_match.
    + unfold on_message, createWorkerHandler, on_result, onload, onloadError.
      repeat case_match; simplify_eq; try done; apply resumes_settle.
    + unfold on_exit. case_match; [|done]. unfold createWorkerExitHandler.
      apply (foldl_invariant
               (λ w', resumes (microtasks w') = resumes (microtasks w))); [|done].
      intros w' kv <-. apply resumes_settle.
Qed.

Lemma resumes_cons j q :
  resumes (j :: q) = (if decide (j = JResume) then 1 else 0) + resumes q.
Proof.
  unfold resumes. case_decide.
  - by rewrite filter_cons_True.
  - by rewrite filter_cons_False.
Qed.

Lemma draining_await_all s K w :
  awaiting w = [] → resumes (microtasks w) = 0 → kills (log w) = K →
  draining s K (await_all s w).
Proof.
  intros Ha Hr Hk. unfold await_all.
  destruct (Promise_all (cells w) s) eqn:Hall.
  - left. wsimpl. by rewrite Ha.
  - right; left. wsimpl. rewrite resumes_snoc, Hr, decide_True by done.
    repeat split; try done. by apply Promise_all_fulfilled.
  - right; right. wsimpl. rewrite kills_snoc by done. repeat split; try done.
    by left.
Qed.

Lemma draining_step s K ev w :
  is_shutdown ev = false → wf w → draining s K w → draining s K (step ev w).
Proof.
  intros Hev Hwf HD.
  destruct (is_microtask ev) eqn:Hm.
  - destruct ev; try done. cbn [step]. unfold step_microtask.
    destruct (microtasks w) as [|[i|] q] eqn:Hq; [done| |].
    + unfold run_job.
      replace (cells (with_microtasks (λ _, q) w)) with (cells w) by done.
      destruct (cells w !! i) as [c|] eqn:Hc.
      2:{ unfold draining in *. wsimpl. rewrite Hq in HD.
          by rewrite resumes_cons, decide_False in HD. }
      assert (Hfull : all_fulfilled (cells w) s →
                all_fulfilled (<[i := set_outer (inner c) c]> (cells w)) s).
      { intros Hall. pose proof (all_fulfilled_step EMicrotask w s Hwf Hall) as H.
        cbn [step] in H. unfold step_microtask in H. rewrite Hq in H.
        unfold run_job in H.
        replace (cells (with_microtasks (λ _, q) w)) with (cells w) in H by done.
        rewrite Hc, cells_wake in H. exact H. }
      unfold draining in HD. rewrite Hq in HD.
      rewrite resumes_cons, decide_False in HD by done. simpl in HD.
      unfold wake. wsimpl.
      destruct HD as [(Ha & Hr & Hk)|[(Ha & Hr & Hk & Hall)|(Ha & Hr & Hk)]];
        rewrite Ha; cbn [foldl].
      * apply draining_await_all; wsimpl; [done|done|by rewrite kills_snoc].
      * right; left. wsimpl. rewrite kills_snoc by done. auto.
      * right; right. wsimpl. rewrite kills_snoc by done.
        repeat split; try done. destruct Hk as [Hk|[Hk Hall]]; auto.
    + unfold run_job, worker_kill, draining in *. wsimpl. rewrite Hq in HD.
      rewrite resumes_cons, decide_True in HD by done.
      destruct HD as [(Ha & Hr & Hk)|[(Ha & Hr & Hk & Hall)|(Ha & Hr & Hk)]];
        try lia.
      right; right. rewrite kills_app, Hk. simpl.
      split; [done|]. split; [lia|]. right. by split.
  - destruct (shutdown_state_step ev w Hev Hm) as (Ha & Hr & Hk).
    unfold draining. rewrite Ha, Hr, Hk.
    destruct HD as [HD|[(? & ? & ? & Hall)|(? & ? & Hkk)]].
    + by left.
    + right; left. repeat split; try done. by apply all_fulfilled_step.
    + right; right. repeat split; try done.
      destruct Hkk as [?|[? Hall]]; [by left|right].
      split; [done|]. by apply all_fulfilled_step.
Qed.

Lemma draining_run s K evs w :
  forallb (λ ev, negb (is_shutdown ev)) evs = true →
  wf w → draining s K w → draining s K (run evs w).
Proof.
  revert w. induction evs as [|ev evs IH]; intros w Hevs Hwf HD; simpl in *; [done|].
  apply andb_prop in Hevs as [Hev Hevs].
  apply IH; [done|by apply wf_step|].
  apply draining_step; [by destruct (is_shutdown ev)|done|done].
Qed.

Lemma resumes_zero q : JResume ∉ q → resumes q = 0.
Proof.
  intros Hq. unfold resumes. induction q as [|j q IH]; [done|].
  rewrite filter_cons_False; [|intros ->; apply Hq; by left].
  apply IH. intros H. apply Hq. by right.
Qed.

Lemma draining_shutdown w :
  quiet w →
  draining (promise <$> JsMap.values (pendingPromises w)) (kills (log w)) (shutdown w).
Proof.
  intros [Ha Hq]. unfold shutdown, cleanupFunction, shutdownPluginWorker.
  assert (HD : draining (promise <$> JsMap.values (pendingPromises w)) (kills (log w))
    (await_all (promise <$> JsMap.values (pendingPromises w))
       (emit (AAwaitAll (promise <$> JsMap.values (pendingPromises w)))
          (with_nxPluginCache ∅ (worker_off_exit w))))).
  { apply draining_await_all; wsimpl; [done|by apply resumes_zero|].
    by rewrite !kills_snoc. }
  exact HD.
Qed.

(** X9: the first time the shutdown function is called, [SIGINT] is sent at
    most once, and when it has been sent every future that was in the
    registry at the call is fulfilled: the worker is never signalled while
    one of them is pending, nor after one of them was rejected. *)
Theorem kill_only_after_snapshot_fulfilled (cf : gset N) (names : gmap N string)
    (cache : gmap string N) (plugin root : Value) (child : N)
    (before after : list Event) :
  let w := run before (loadRemoteNxPlugin cf names cache plugin root child) in
  let w' := run after (step EShutdown w) in
  forallb (λ ev, negb (is_shutdown ev)) before = true →
  forallb (λ ev, negb (is_shutdown ev)) after = true →
  kills (log w') = [] ∨
  kills (log w') = ["SIGINT"] ∧
  all_fulfilled (cells w') (promise <$> JsMap.values (pendingPromises w)).
Proof.
  intros w w' Hbefore Hafter.
  assert (Hwf : wf w) by apply wf_run, wf_init.
  destruct (quiet_run before (loadRemoteNxPlugin cf names cache plugin root child) [])
    as [Hquiet Hk]; [done| |].
  { split; [split|]; [done| |done]. simpl. apply not_elem_of_nil. }
  fold w in Hquiet, Hk.
  pose proof (draining_shutdown w Hquiet) as HD. rewrite Hk in HD.
  apply (draining_run _ _ after) in HD; [|done|].
  2:{ change (shutdown w) with (step EShutdown w). by apply wf_step. }
  change (run after (shutdown w)) with w' in HD.
  destruct HD as [(_ & _ & ->)|[(_ & _ & -> & _)|(_ & _ & [->|[-> Hall]])]]; auto.
Qed.

Lemma kill_only_after_snapshot_fulfilled_witness :
  forallb (λ ev, negb (is_shutdown ev))
    [EMessage (Res_load_result (LoadOk demo_load)); EInvoke demo_call "12.5"] = true ∧
  forallb (λ ev, negb (is_shutdown ev))
    [EMessage (Res_createDependenciesResult demo_tx (OpOk (VJson "[a->b]")));
     EMicrotask; EMicrotask] = true ∧
  (kills (log (run [EMessage (Res_createDependenciesResult demo_tx (OpOk (VJson "[a->b]")));
                    EMicrotask; EMicrotask]
                 (step EShutdown
                    (run [EMessage (Res_load_result (LoadOk demo_load));
                          EInvoke demo_call "12.5"] demo_forked)))) = [] ∨
   kills (log (run [EMessage (Res_createDependenciesResult demo_tx (OpOk (VJson "[a->b]")));
                    EMicrotask; EMicrotask]
                 (step EShutdown
                    (run [EMessage (Res_load_result (LoadOk demo_load));
                          EInvoke demo_call "12.5"] demo_forked)))) = ["SIGINT"] ∧
   all_fulfilled
     (cells (run [EMessage (Res_createDependenciesResult demo_tx (OpOk (VJson "[a->b]")));
                  EMicrotask; EMicrotask]
               (step EShutdown
                  (run [EMessage (Res_load_result (LoadOk demo_load));
                        EInvoke demo_call "12.5"] demo_forked))))
     (promise <$> JsMap.values
        (pendingPromises (run [EMessage (Res_load_result (LoadOk demo_load));
                               EInvoke demo_call "12.5"] demo_forked)))).
Proof.
  split; [reflexivity|]. split; [reflexivity|].
  apply (kill_only_after_snapshot_fulfilled ∅ ∅ ∅ (VJson "demo-plugin")
           (VJson "/workspace") 4242
           [EMessage (Res_load_result (LoadOk demo_load)); EInvoke demo_call "12.5"]
           [EMessage (Res_createDependenciesResult demo_tx (OpOk (VJson "[a->b]")));
            EMicrotask; EMicrotask]); reflexivity.
Defined.

(** ** The registry lists the calls in flight *)

Lemma JsMap_keys_set_fresh {V} (k : string) (v : V) m :
  k ∉ JsMap.keys m → JsMap.keys (JsMap.set k v m) = JsMap.keys m ++ [k].
Proof.
  unfold JsMap.keys. induction m as [|[k0 v0] m IH]; simpl; [done|].
  intros Hk. rewrite not_elem_of_cons in Hk. destruct Hk as [Hne Hk].
  destruct (decide (k0 = k)) as [->|_]; [done|]. simpl. f_equal. by apply IH.
Qed.

Lemma JsMap_keys_delete {V} (k : string) (m : list (string * V)) :
  JsMap.keys (JsMap.delete k m) = filter (λ k', k' ≠ k) (JsMap.keys m).
Proof.
  unfold JsMap.keys. induction m as [|[k0 v0] m IH]; simpl; [done|].
  destruct (decide (k0 = k)) as [->|Hne].
  - by rewrite filter_cons_False by (intros H; by apply H).
  - rewrite filter_cons_True by done. simpl. f_equal. exact IH.
Qed.

Lemma JsMap_elem_of_get {V} (k : string) (v : V) (m : list (string * V)) :
  NoDup (JsMap.keys m) → (k, v) ∈ m → JsMap.get k m = Some v.
Proof.
  unfold JsMap.keys. induction m as [|[k0 v0] m IH]; simpl.
  - intros _ H. by apply elem_of_nil in H.
  - intros [Hnotin Hnd]%NoDup_cons [Heq|Hin]%elem_of_cons.
    + injection Heq as -> ->. by rewrite decide_True.
    + destruct (decide (k0 = k)) as [->|Hne]; [|by apply IH].
      exfalso. apply Hnotin. apply list_elem_of_fmap. by exists (k, v).
Qed.

Lemma filter_ne_id (k : string) (l : list string) :
  k ∉ l → filter (λ k', k' ≠ k) l = l.
Proof.
  induction l as [|x l IH]; [done|]. intros Hk.
  rewrite not_elem_of_cons in Hk. destruct Hk as [Hne Hk].
  rewrite filter_cons_True by done. by rewrite IH.
Qed.

Lemma in_flight_snoc cs tx :
  in_flight (cs ++ [{| inner := None; finally_tx := tx; outer := None |}])
  = in_flight cs ++ [tx].
Proof.
  unfold in_flight. by rewrite filter_app, fmap_app.
Qed.

Lemma in_flight_elem_of cs tx :
  tx ∈ in_flight cs → tx ∈ finally_tx <$> cs.
Proof.
  unfold in_flight. rewrite !list_elem_of_fmap.
  intros (c & -> & Hc). exists c. split; [done|].
  by apply list_elem_of_filter in Hc as [_ ?].
Qed.

Lemma in_flight_NoDup cs :
  NoDup (finally_tx <$> cs) → NoDup (in_flight cs).
Proof.
  intros Hnd. eapply sublist_NoDup; [exact Hnd|].
  unfold in_flight. apply fmap_sublist, sublist_filter.
Qed.

Lemma in_flight_same (cs cs' : list Cell) :
  (λ c, (finally_tx c, outer c)) <$> cs' = (λ c, (finally_tx c, outer c)) <$> cs →
  in_flight cs' = in_flight cs.
Proof.
  unfold in_flight. revert cs'.
  induction cs as [|c cs IH]; intros [|c' cs'] H; simplify_eq/=; [done|].
  destruct (decide (outer c = None)) as [Hn|Hn].
  - rewrite !filter_cons_True by congruence. simpl. f_equal; [done|by apply IH].
  - rewrite !filter_cons_False by congruence. by apply IH.
Qed.

Lemma in_flight_inner_only cs cs' :
  inner_only cs cs' → in_flight cs' = in_flight cs.
Proof.
  intros Hio. apply in_flight_same. apply list_eq. intros j.
  rewrite !list_lookup_fmap.
  destruct (cs !! j) as [c|] eqn:Hc.
  - destruct (proj2 Hio _ _ Hc) as (c' & -> & Htx & Ho). simpl.
    by rewrite Htx, Ho.
  - destruct (cs' !! j) as [c'|] eqn:Hc'; [|done].
    destruct (inner_only_back _ _ _ _ Hio Hc') as (c & ? & _). congruence.
Qed.

(** Settling the outer promise of a cell takes its identifier out. *)
Lemma in_flight_set_outer cs i c c' :
  NoDup (finally_tx <$> cs) → cs !! i = Some c →
  finally_tx c' = finally_tx c → outer c' ≠ None →
  in_flight (<[i := c']> cs) = filter (λ k, k ≠ finally_tx c) (in_flight cs).
Proof.
  intros Hnd Hc Htx Hout. revert i Hc Hnd.
  induction cs as [|c0 cs IH]; intros [|i] Hc Hnd; simplify_eq/=.
  - apply NoDup_cons in Hnd as [Hnotin _].
    unfold in_flight. rewrite filter_cons_False by done.
    fold (in_flight cs).
    assert (Hid : filter (λ k, k ≠ finally_tx c) (in_flight cs) = in_flight cs).
    { apply filter_ne_id. intros H. by apply Hnotin, in_flight_elem_of. }
    destruct (decide (outer c = None)).
    + rewrite filter_cons_True by done. simpl.
      rewrite filter_cons_False by (intros H; by apply H). done.
    + by rewrite filter_cons_False by done.
  - apply NoDup_cons in Hnd as [Hnotin Hnd].
    assert (Hne : finally_tx c0 ≠ finally_tx c).
    { intros Heq. apply Hnotin. rewrite Heq. by eapply txs_elem_of. }
    unfold in_flight in *. destruct (decide (outer c0 = None)).
    + rewrite !filter_cons_True by done. simpl.
      rewrite filter_cons_True by done. f_equal. by apply IH.
    + rewrite !filter_cons_False by done. by apply IH.
Qed.

Lemma registry_keys_step ev w :
  wf w → uniq w → fresh_event ev w = true →
  JsMap.keys (pendingPromises w) = in_flight (cells w) →
  JsMap.keys (pendingPromises (step ev w)) = in_flight (cells (step ev w)).
Proof.
  intros Hwf Hu Hfresh HK.
  assert (Hview : ∀ w', same_view w w' →
            JsMap.keys (pendingPromises w') = in_flight (cells w')).
  { intros w' (Hc & Hp & _). by rewrite Hc, Hp. }
  assert (Hsettle : ∀ i o,
            JsMap.keys (pendingPromises (settle i o w))
            = in_flight (cells (settle i o w))).
  { intros i o. rewrite pending_settle, HK. symmetry.
    apply in_flight_inner_only, inner_only_settle. }
  destruct ev as [c now|m|code| | |]; cbn [step].
  - unfold host_invoke. repeat case_match; try done.
    unfold invoke, registerPendingPromise. cbn [snd]. wsimpl.
    simpl in Hfresh. apply bool_decide_eq_true in Hfresh.
    rewrite in_flight_snoc, <- HK. apply JsMap_keys_set_fresh.
    rewrite HK. intros Hin. by apply Hfresh, in_flight_elem_of.
  - unfold on_message, createWorkerHandler, on_result, onload, onloadError.
    repeat case_match; simplify_eq; try done.
  - unfold on_exit. case_match; [|done].
    rewrite pending_exit_handler. wsimpl. rewrite HK. symmetry.
    apply (in_flight_inner_only (cells (with_exitCode code w))),
      inner_only_exit_handler.
  - apply Hview, same_view_shutdown.
  - unfold step_microtask. destruct (microtasks w) as [|[i|] q] eqn:Hq; [done| |].
    + unfold run_job.
      replace (cells (with_microtasks (λ _, q) w)) with (cells w) by done.
      destruct (cells w !! i) as [ci|] eqn:Hci; [|done].
      rewrite pending_wake, cells_wake. wsimpl.
      rewrite JsMap_keys_delete, HK. symmetry.
      apply in_flight_set_outer; [apply Hu|done|done|].
      destruct (wf_jobs _ Hwf i) as (c0 & Hc0 & [o Ho]); [rewrite Hq; by left|].
      simplify_eq. simpl. by rewrite Ho.
    + done.
  - apply Hview, same_view_process_exit.
Qed.

Lemma registry_keys_run evs w :
  wf w → uniq w → fresh_trace evs w = true →
  JsMap.keys (pendingPromises w) = in_flight (cells w) →
  JsMap.keys (pendingPromises (run evs w)) = in_flight (cells (run evs w)).
Proof.
  revert w. induction evs as [|ev evs IH]; intros w Hwf Hu Hfresh HK; simpl; [done|].
  simpl in Hfresh. apply andb_prop in Hfresh as [Hev Hevs].
  apply IH; [by apply wf_step|by apply uniq_step|done|by apply registry_keys_step].
Qed.

(** X10: as long as identifiers are not reused, the keys of the registry
    are, in insertion order, the identifiers of the transactions whose
    future is still pending, oldest first, without repetition, and each
    entry refers to the cell of its own transaction.  So the exit handler
    and the snapshot of the shutdown function go through exactly the calls
    in flight, in the order they were made, and a completed call leaves
    nothing behind in the registry. *)
Theorem registry_is_calls_in_flight (cf : gset N) (names : gmap N string)
    (cache : gmap string N) (plugin root : Value) (child : N) (evs : list Event) :
  let w := run evs (loadRemoteNxPlugin cf names cache plugin root child) in
  fresh_trace evs (loadRemoteNxPlugin cf names cache plugin root child) = true →
  JsMap.keys (pendingPromises w) = in_flight (cells w) ∧
  NoDup (JsMap.keys (pendingPromises w)) ∧
  ∀ tx pp, (tx, pp) ∈ pendingPromises w →
    pp = {| promise := promise pp; resolver := promise pp; rejector := promise pp |} ∧
    ∃ c, cells w !! promise pp = Some c ∧ finally_tx c = tx ∧ outer c = None.
Proof.
  intros w Hfresh.
  destruct (inv_run evs _ (wf_init cf names cache plugin root child)
              (uniq_init cf names cache plugin root child) Hfresh) as [Hwf Hu].
  fold w in Hwf, Hu.
  assert (HK : JsMap.keys (pendingPromises w) = in_flight (cells w)).
  { apply registry_keys_run; [apply wf_init|apply uniq_init|done|done]. }
  assert (Hnd : NoDup (JsMap.keys (pendingPromises w))).
  { rewrite HK. apply in_flight_NoDup, Hu. }
  split; [done|]. split; [done|].
  intros tx pp Hin.
  pose proof (JsMap_elem_of_get _ _ _ Hnd Hin) as Hget.
  destruct (uq_keys _ Hu tx) as (i & c & Hc & Htx & Hout); [by eexists|].
  pose proof (uq_registered _ Hu _ _ Hc Hout) as Hreg.
  rewrite Htx, Hget in Hreg. injection Hreg as ->. simpl.
  split; [done|]. by exists c.
Qed.

Lemma registry_is_calls_in_flight_witness :
  fresh_trace demo_trace demo_forked = true ∧
  JsMap.keys (pendingPromises (run demo_trace demo_forked))
  = in_flight (cells (run demo_trace demo_forked)).
Proof.
  split; [by vm_compute|].
  apply (registry_is_calls_in_flight ∅ ∅ ∅ (VJson "demo-plugin")
           (VJson "/workspace") 4242 demo_trace). by vm_compute.
Defined.

(** ** A call and its answer *)

Lemma JsMap_delete_set_fresh {V} (k : string) (v : V) (m : list (string * V)) :
  JsMap.get k m = None → JsMap.delete k (JsMap.set k v m) = m.
Proof.
  induction m as [|[k0 v0] m IH]; simpl.
  - intros _. by rewrite decide_True.
  - destruct (decide (k0 = k)) as [->|Hne]; [done|]. intros Hget. simpl.
    rewrite decide_False by done. f_equal. by apply IH.
Qed.

Lemma invoke_fields c now w :
  let tx := mk_tx (pluginName w) (op_of c) now in
  cells (invoke c now w).2
  = cells w ++ [{| inner := None; finally_tx := tx; outer := None |}] ∧
  pendingPromises (invoke c now w).2
  = JsMap.set tx {| promise := length (cells w); resolver := length (cells w);
                    rejector := length (cells w) |} (pendingPromises w) ∧
  microtasks (invoke c now w).2 = microtasks w ∧
  sent (log (invoke c now w).2) = sent (log w) ++ [request_of c tx].
Proof.
  intros tx. unfold invoke, registerPendingPromise. cbn [snd]. wsimpl.
  repeat split. by rewrite sent_snoc_other, sent_snoc by done.
Qed.

Lemma settle_pending_fields i o w c :
  cells w !! i = Some c → inner c = None →
  cells (settle i o w) = <[i := set_inner o c]> (cells w) ∧
  microtasks (settle i o w) = microtasks w ++ [JFinally i].
Proof. intros Hc Hin. unfold settle. by rewrite Hc, Hin. Qed.

Lemma finally_fields i q w c :
  microtasks w = JFinally i :: q → cells w !! i = Some c →
  cells (step_microtask w) = <[i := set_outer (inner c) c]> (cells w) ∧
  pendingPromises (step_microtask w)
  = JsMap.delete (finally_tx c) (pendingPromises w).
Proof.
  intros Hq Hc. unfold step_microtask. rewrite Hq. unfold run_job.
  replace (cells (with_microtasks (λ _, q) w)) with (cells w) by done.
  rewrite Hc, cells_wake, pending_wake. by wsimpl.
Qed.

(** X11: a call and its answer, start to end.  On a worker whose handle
    exposes the operation and whose job queue is empty, calling the
    operation with an identifier that has not been used, then handling the
    result message that carries this identifier and running the next job,
    sends exactly one message to the worker (the request, with the
    identifier), adds one transaction whose future has the outcome the
    message reports (the payload when it succeeded, the error when it
    failed), changes no other transaction, and leaves the registry as it
    was before the call. *)
Theorem call_round_trip (cf : gset N) (names : gmap N string)
    (cache : gmap string N) (plugin root : Value) (child : N) (evs : list Event)
    (h : RemotePlugin) (c : Invocation) (now : string) (r : OpResult)
    (m : PluginWorkerResult) :
  let w := run evs (loadRemoteNxPlugin cf names cache plugin root child) in
  let tx := mk_tx (pluginName w) (op_of c) now in
  let w' := run [EInvoke c now; EMessage m; EMicrotask] w in
  fresh_trace evs (loadRemoteNxPlugin cf names cache plugin root child) = true →
  fresh_event (EInvoke c now) w = true →
  loaded w = Some (LoadFulfilled h) → is_Some (operation h (op_of c)) →
  microtasks w = [] →
  m ∈ results_for tx r →
  sent (log w') = sent (log w) ++ [request_of c tx] ∧
  cells w' = cells w ++ [{| inner := Some (outcome_of r); finally_tx := tx;
                            outer := Some (outcome_of r) |}] ∧
  pendingPromises w' = pendingPromises w.
Proof.
  intros w tx w' Hfresh Hnew Hl Hop Hq Hm.
  destruct (inv_run evs _ (wf_init cf names cache plugin root child)
              (uniq_init cf names cache plugin root child) Hfresh) as [Hwf Hu].
  fold w in Hwf, Hu.
  simpl in Hnew. apply bool_decide_eq_true in Hnew. fold tx in Hnew.
  assert (Hnone : JsMap.get tx (pendingPromises w) = None).
  { apply eq_None_not_Some. intros Hs.
    destruct (uq_keys _ Hu tx Hs) as (i & ci & Hci & Htx & _).
    apply Hnew. rewrite <- Htx. by eapply txs_elem_of. }
  set (n := length (cells w)).
  set (new := {| inner := None; finally_tx := tx; outer := None |}).
  set (w1 := (invoke c now w).2).
  destruct (invoke_fields c now w) as (Hc1 & Hp1 & Hq1 & Hs1).
  fold tx new n w1 in Hc1, Hp1, Hq1, Hs1.
  assert (Hn1 : cells w1 !! n = Some new).
  { rewrite Hc1. apply list_lookup_middle. done. }
  set (w2 := settle n (outcome_of r) w1).
  assert (Hstep2 : step (EMessage m) w1 = w2).
  { cbn [step]. unfold on_message. rewrite (handler_on_result tx r) by done.
    unfold on_result. rewrite Hp1, JsMap_get_set_eq. by destruct r. }
  destruct (settle_pending_fields n (outcome_of r) w1 new Hn1 eq_refl)
    as (Hc2 & Hq2).
  fold w2 in Hc2, Hq2. rewrite Hq1, Hq in Hq2. simpl in Hq2.
  assert (Hc2' : cells w2 = cells w ++ [set_inner (outcome_of r) new]).
  { rewrite Hc2, Hc1. unfold n. rewrite insert_app_r_alt by lia.
    by rewrite Nat.sub_diag. }
  assert (Hn2 : cells w2 !! n = Some (set_inner (outcome_of r) new)).
  { rewrite Hc2'. by apply list_lookup_middle. }
  destruct (finally_fields n [] w2 _ Hq2 Hn2) as (Hc3 & Hp3).
  assert (Hw' : w' = step_microtask w2).
  { unfold w'. cbn [run foldl]. cbn [step].
    rewrite (host_invoke_exposed c now w h) by done.
    fold w1. change (on_message m w1) with (step (EMessage m) w1).
    by rewrite Hstep2. }
  rewrite Hw'. split; [|split].
  - rewrite sent_step_microtask. unfold w2. by rewrite sent_settle.
  - rewrite Hc3, Hc2'. unfold n. rewrite insert_app_r_alt by lia.
    by rewrite Nat.sub_diag.
  - rewrite Hp3. unfold w2. rewrite pending_settle, Hp1. simpl.
    by apply JsMap_delete_set_fresh.
Qed.

Lemma call_round_trip_witness :
  let w := run [EMessage (Res_load_result (LoadOk demo_load))] demo_forked in
  let m := Res_createDependenciesResult demo_tx (OpFail (VJson "boom")) in
  pendingPromises (run [EInvoke demo_call "12.5"; EMessage m; EMicrotask] w)
  = pendingPromises w.
Proof.
  intros w m.
  refine (proj2 (proj2 (call_round_trip ∅ ∅ ∅ (VJson "demo-plugin")
           (VJson "/workspace") 4242
           [EMessage (Res_load_result (LoadOk demo_load))]
           (remotePlugin demo_load) demo_call "12.5" (OpFail (VJson "boom")) m
           _ _ _ _ _ _))).
  - by vm_compute.
  - by vm_compute.
  - reflexivity.
  - by eexists.
  - reflexivity.
  - unfold results_for. left.
Defined.

(** ** The signal is sent once the awaited calls have succeeded *)

(** [Promise.all] looks at the outer promises only. *)
Lemma Promise_all_ext cs cs' s :
  (∀ i, cs' !! i ≫= outer = cs !! i ≫= outer) →
  Promise_all cs' s = Promise_all cs s.
Proof.
  intros H. induction s as [|i s IH]; simpl; [done|]. by rewrite H, IH.
Qed.

Lemma Promise_all_rejected cs s e :
  Promise_all cs s = AllRejected e → some_rejected cs s.
Proof.
  induction s as [|i s IH]; simpl; [done|]. intros H.
  assert (Hrest : some_rejected cs s → some_rejected cs (i :: s)).
  { intros (j & c & e' & Hj & Hc & Ho). exists j, c, e'. split; [by right|done]. }
  destruct (cs !! i) as [c|] eqn:Hc; simpl in H.
  - destruct (outer c) as [[v|e']|] eqn:Ho.
    + by apply Hrest, IH.
    + exists i, c, e'. split; [by left|done].
    + destruct (Promise_all cs s); try done. by apply Hrest, IH.
  - destruct (Promise_all cs s); try done. by apply Hrest, IH.
Qed.

Lemma fulfilled_not_rejected cs s :
  all_fulfilled cs s → ¬ some_rejected cs s.
Proof.
  intros Hall (i & c & e & Hi & Hc & Ho).
  destruct (Hall i Hi) as (c' & v & Hc' & Ho'). congruence.
Qed.

Lemma inner_only_outer_view cs cs' i :
  inner_only cs cs' → cs' !! i ≫= outer = cs !! i ≫= outer.
Proof.
  intros Hio. destruct (cs !! i) as [c|] eqn:Hc.
  - destruct (proj2 Hio _ _ Hc) as (c' & -> & _ & Ho). simpl. by rewrite Ho.
  - destruct (cs' !! i) as [c'|] eqn:Hc'; [|done].
    destruct (inner_only_back _ _ _ _ Hio Hc') as (c & ? & _). congruence.
Qed.

(** Outside the jobs no outer promise changes, and a new transaction starts
    with a pending one. *)
Lemma outer_view_step ev w i :
  is_microtask ev = false →
  cells (step ev w) !! i ≫= outer = cells w !! i ≫= outer.
Proof.
  intros Hm. destruct ev as [c now|m|code| | |]; try done; cbn [step].
  - unfold host_invoke. repeat case_match; try done.
    rewrite (proj1 (invoke_fields c now w)).
    destruct (decide (i < length (cells w))) as [Hlt|Hge].
    + by rewrite lookup_app_l.
    + rewrite (lookup_ge_None_2 (cells w)) by lia.
      destruct (decide (i = length (cells w))) as [->|Hne].
      * by rewrite list_lookup_middle.
      * rewrite lookup_ge_None_2; [done|]. rewrite length_app. simpl. lia.
  - assert (Hs : ∀ j o, cells (settle j o w) !! i ≫= outer = cells w !! i ≫= outer).
    { intros j o. apply inner_only_outer_view, inner_only_settle. }
    unfold on_message, createWorkerHandler, on_result, onload, onloadError.
    repeat case_match; simplify_eq; try done.
  - unfold on_exit. case_match; [|done].
    apply (inner_only_outer_view (cells (with_exitCode code w))),
      inner_only_exit_handler.
  - by rewrite cells_shutdown.
  - by rewrite cells_process_exit.
Qed.

Lemma some_rejected_step ev w s :
  wf w → some_rejected (cells w) s → some_rejected (cells (step ev w)) s.
Proof.
  intros Hwf (i & c & e & Hi & Hc & Ho).
  destruct (outer_stable_step ev w i c _ Hwf Hc Ho) as (c' & Hc' & Ho').
  by exists i, c', e.
Qed.

Lemma finishing_await_all s K w :
  awaiting w = [] → resumes (microtasks w) = 0 → kills (log w) = K →
  finishing s K (await_all s w).
Proof.
  intros Ha Hr Hk. unfold await_all.
  destruct (Promise_all (cells w) s) eqn:Hall.
  - left. wsimpl. by rewrite Ha.
  - right; left. wsimpl. by rewrite resumes_snoc, Hr, decide_True.
  - right; right. wsimpl. rewrite kills_snoc by done. repeat split; try done.
    right. split; [done|]. by eapply Promise_all_rejected.
Qed.

Lemma finishing_step s K ev w :
  is_shutdown ev = false → wf w → finishing s K w → finishing s K (step ev w).
Proof.
  intros Hev Hwf HD.
  destruct (is_microtask ev) eqn:Hm.
  - destruct ev; try done. cbn [step]. unfold step_microtask.
    destruct (microtasks w) as [|[i|] q] eqn:Hq; [done| |].
    + unfold run_job.
      replace (cells (with_microtasks (λ _, q) w)) with (cells w) by done.
      destruct (cells w !! i) as [c|] eqn:Hc.
      2:{ unfold finishing in *. wsimpl. rewrite Hq in HD.
          by rewrite resumes_cons, decide_False in HD. }
      assert (Hrej : some_rejected (cells w) s →
                some_rejected (<[i := set_outer (inner c) c]> (cells w)) s).
      { intros Hsome. pose proof (some_rejected_step EMicrotask w s Hwf Hsome) as H.
        cbn [step] in H. unfold step_microtask in H. rewrite Hq in H.
        unfold run_job in H.
        replace (cells (with_microtasks (λ _, q) w)) with (cells w) in H by done.
        rewrite Hc, cells_wake in H. exact H. }
      unfold finishing in HD. rewrite Hq in HD.
      rewrite resumes_cons, decide_False in HD by done. simpl in HD.
      unfold wake. wsimpl.
      destruct HD as [(Ha & Hr & Hk & _)|[(Ha & Hr & Hk)|(Ha & Hr & Hk)]];
        rewrite Ha; cbn [foldl].
      * apply finishing_await_all; wsimpl; [done|done|by rewrite kills_snoc].
      * right; left. wsimpl. rewrite kills_snoc by done. auto.
      * right; right. wsimpl. rewrite kills_snoc by done.
        repeat split; try done. destruct Hk as [Hk|[Hk Hsome]]; auto.
    + unfold run_job, worker_kill, finishing in *. wsimpl. rewrite Hq in HD.
      rewrite resumes_cons, decide_True in HD by done.
      destruct HD as [(Ha & Hr & Hk & _)|[(Ha & Hr & Hk)|(Ha & Hr & Hk)]];
        try lia.
      right; right. rewrite kills_app, Hk. simpl.
      split; [done|]. split; [lia|]. by left.
  - destruct (shutdown_state_step ev w Hev Hm) as (Ha & Hr & Hk).
    unfold finishing. rewrite Ha, Hr, Hk.
    destruct HD as [(? & ? & ? & Hall)|[(? & ? & ?)|(? & ? & Hkk)]].
    + left. repeat split; try done. rewrite <- Hall.
      apply Promise_all_ext. intros i. by apply outer_view_step.
    + right; left. by repeat split.
    + right; right. repeat split; try done.
      destruct Hkk as [?|[? Hsome]]; [by left|right].
      split; [done|]. by apply some_rejected_step.
Qed.

Lemma finishing_run s K evs w :
  forallb (λ ev, negb (is_shutdown ev)) evs = true →
  wf w → finishing s K w → finishing s K (run evs w).
Proof.
  revert w. induction evs as [|ev evs IH]; intros w Hevs Hwf HD; simpl in *; [done|].
  apply andb_prop in Hevs as [Hev Hevs].
  apply IH; [done|by apply wf_step|].
  apply finishing_step; [by destruct (is_shutdown ev)|done|done].
Qed.

Lemma finishing_shutdown w :
  quiet w →
  finishing (promise <$> JsMap.values (pendingPromises w)) (kills (log w)) (shutdown w).
Proof.
  intros [Ha Hq]. unfold shutdown, cleanupFunction, shutdownPluginWorker.
  assert (HD : finishing (promise <$> JsMap.values (pendingPromises w)) (kills (log w))
    (await_all (promise <$> JsMap.values (pendingPromises w))
       (emit (AAwaitAll (promise <$> JsMap.values (pendingPromises w)))
          (with_nxPluginCache ∅ (worker_off_exit w))))).
  { apply finishing_await_all; wsimpl; [done|by apply resumes_zero|].
    by rewrite !kills_snoc. }
  exact HD.
Qed.

(** X12: the first call of the shutdown function does send its signal.
    Whatever happens after the call (results, further calls of operations,
    the exit of the worker, jobs), once no job is left in the queue and
    [Promise.all] over the futures that were in the registry at the call is
    fulfilled, [SIGINT] has been sent, exactly once.  With X9 this makes the
    signal, when the queue has run dry, equivalent to the success of all the
    calls the shutdown function waited for. *)
Theorem kill_once_snapshot_fulfilled (cf : gset N) (names : gmap N string)
    (cache : gmap string N) (plugin root : Value) (child : N)
    (before after : list Event) :
  let w := run before (loadRemoteNxPlugin cf names cache plugin root child) in
  let w' := run after (step EShutdown w) in
  forallb (λ ev, negb (is_shutdown ev)) before = true →
  forallb (λ ev, negb (is_shutdown ev)) after = true →
  microtasks w' = [] →
  Promise_all (cells w') (promise <$> JsMap.values (pendingPromises w)) = AllFulfilled →
  kills (log w') = ["SIGINT"].
Proof.
  intros w w' Hbefore Hafter Hdry Hall.
  assert (Hwf : wf w) by apply wf_run, wf_init.
  destruct (quiet_run before (loadRemoteNxPlugin cf names cache plugin root child) [])
    as [Hquiet Hk]; [done| |].
  { split; [split|]; [done| |done]. simpl. apply not_elem_of_nil. }
  fold w in Hquiet, Hk.
  pose proof (finishing_shutdown w Hquiet) as HD. rewrite Hk in HD.
  apply (finishing_run _ _ after) in HD; [|done|].
  2:{ change (shutdown w) with (step EShutdown w). by apply wf_step. }
  change (run after (shutdown w)) with w' in HD.
  destruct HD as [(_ & _ & _ & Hpend)|[(_ & Hr & _)|(_ & _ & [->|[_ Hsome]])]].
  - congruence.
  - rewrite Hdry in Hr. done.
  - done.
  - exfalso. eapply fulfilled_not_rejected; [|exact Hsome].
    by apply Promise_all_fulfilled.
Qed.

Lemma kill_once_snapshot_fulfilled_witness :
  kills (log (run [EMessage (Res_createDependenciesResult demo_tx (OpOk (VJson "[a->b]")));
                   EMicrotask; EMicrotask]
                (step EShutdown
                   (run [EMessage (Res_load_result (LoadOk demo_load));
                         EInvoke demo_call "12.5"] demo_forked))))
  = ["SIGINT"].
Proof.
  apply (kill_once_snapshot_fulfilled ∅ ∅ ∅ (VJson "demo-plugin")
           (VJson "/workspace") 4242
           [EMessage (Res_load_result (LoadOk demo_load)); EInvoke demo_call "12.5"]
           [EMessage (Res_createDependenciesResult demo_tx (OpOk (VJson "[a->b]")));
            EMicrotask; EMicrotask]); reflexivity.
Defined.
